(** * apploc-dev/cli: a shallow embedding of [src/cli.js]

    Definitions first, in the order in which the program needs them:

    - [Js]         ordinary JavaScript objects as the transform loop uses
                   them: own properties in insertion order, and property
                   reads and writes that go through [Object.prototype];
    - [Transform]  the nested [forEach] of the [update] command, and the
                   transform as the specification words it;
    - [Posix]      [path.dirname], on which the walk of [findConfig] rests;
    - [Cli]        the functions of [cli.js], over a record that stands for
                   the libraries and the machine, in a monad of state and
                   exceptions;
    - [Demo]       a small machine to run the program on;
    - [Coverage], [Observe], [Bench]
                   vocabulary and machines for the properties of the
                   second part.

    Then the properties, module by module, in two parts. A run of [cli] is
    one process:
    the heap is fresh when the loops start, and the file system is read
    before it is written. *)

From Stdlib Require Import String Ascii List Arith Bool Lia.
From stdpp Require Import gmap strings list fin_maps.

(** ** JavaScript objects *)

Module Js.

(** An ordinary object: its own enumerable string-keyed properties, in
    insertion order (the order [JSON.stringify] walks them in, integer-like
    keys apart). *)
Definition obj (A : Type) : Type := list (string * A).

(** Own-property read. *)
Fixpoint obj_get {A} (k : string) (o : obj A) : option A :=
  match o with
  | [] => None
  | (k', v) :: o' => if decide (k' = k) then Some v else obj_get k o'
  end.

(** Own-property write: an existing property keeps its position, a new one
    goes last. *)
Fixpoint obj_set {A} (k : string) (v : A) (o : obj A) : obj A :=
  match o with
  | [] => [(k, v)]
  | (k', v') :: o' =>
      if decide (k' = k) then (k, v) :: o' else (k', v') :: obj_set k v o'
  end.

(** The object as a value: a finite map, the insertion order forgotten. *)
Definition obj_map {A} (o : obj A) : gmap string A := list_to_map o.

(** The function-valued properties that every object inherits from
    [Object.prototype] (ECMAScript 2015 and its Annex B). The twelfth
    property, [__proto__], is an accessor and is treated apart. *)
Definition object_prototype_functions : list string :=
  [ "constructor"; "hasOwnProperty"; "isPrototypeOf";
    "propertyIsEnumerable"; "toLocaleString"; "toString"; "valueOf";
    "__defineGetter__"; "__defineSetter__";
    "__lookupGetter__"; "__lookupSetter__" ].

(** Properties of a built-in function object that an assignment cannot
    write: [length] and [name] are own and read-only, [arguments] and
    [caller] are inherited accessors that throw, and [Object] itself has a
    read-only [prototype]. *)
Definition function_rejects (fn k : string) : bool :=
  bool_decide (k ∈ ["length"; "name"; "arguments"; "caller"])
  || (bool_decide (fn = "constructor") && bool_decide (k = "prototype")).

(** What the engine raises in the transform loop (module code is strict). *)
Inductive type_error : Type :=
  | ReadOnlyProperty (fn k : string)
  | CannotCreateProperty (k on : string)
  | CannotSetOnUndefined (k : string).

(** The part of the heap the loop can reach: the own properties of
    [localizations], each holding an inner object, and the string-valued
    data properties that the loop itself has stored on [Object.prototype]
    (none when the loop starts). *)
Record heap : Type := Heap {
  own : obj (obj string);
  object_prototype : gmap string string
}.

Definition initial_heap : heap := Heap [] ∅.

(** The result of the property read [localizations[code]]. *)
Inductive reference : Type :=
  | RInner (o : obj string)
  | RObjectPrototype
  | RFunction (fn : string)
  | RString (s : string)
  | RUndefined.

(** [localizations[code]]: own property first, then [Object.prototype],
    where [__proto__] is the accessor that answers the prototype itself, a
    property stored by the loop shadows the built-in of that name. *)
Definition get (h : heap) (code : string) : reference :=
  match obj_get code (own h) with
  | Some o => RInner o
  | None =>
      if decide (code = "__proto__") then RObjectPrototype
      else match object_prototype h !! code with
           | Some s => RString s
           | None =>
               if bool_decide (code ∈ object_prototype_functions)
               then RFunction code
               else RUndefined
           end
  end.

(** [x == null] holds of [undefined] (and [null]) only. *)
Definition is_nullish (r : reference) : bool :=
  match r with RUndefined => true | _ => false end.

Inductive completion (A : Type) : Type :=
  | Normal (a : A)
  | Throw (e : type_error).
Arguments Normal {A} a.
Arguments Throw {A} e.

(** [localizations[code] = {}], reached only when the read was nullish,
    that is when no object on the prototype chain has the property. *)
Definition create_inner (h : heap) (code : string) : heap :=
  Heap (obj_set code [] (own h)) (object_prototype h).

(** [localizations[code][key] = value], by what the read yields.
    On every receiver the key [__proto__] reaches the inherited setter,
    which ignores a value that is not an object. *)
Definition put (h : heap) (code key value : string) : completion heap :=
  match get h code with
  | RInner o =>
      if decide (key = "__proto__") then Normal h
      else Normal (Heap (obj_set code (obj_set key value o) (own h))
                        (object_prototype h))
  | RObjectPrototype =>
      if decide (key = "__proto__") then Normal h
      else Normal (Heap (own h) (<[key := value]> (object_prototype h)))
  | RFunction fn =>
      if decide (key = "__proto__") then Normal h
      else if function_rejects fn key then Throw (ReadOnlyProperty fn key)
      else Normal h
  | RString s =>
      if decide (key = "__proto__") then Normal h
      else Throw (CannotCreateProperty key s)
  | RUndefined => Throw (CannotSetOnUndefined key)
  end.

(** [Array.prototype.forEach] with a callback that may throw. *)
Fixpoint forEach {A S} (f : S → A → completion S) (l : list A) (s : S)
  : completion S :=
  match l with
  | [] => Normal s
  | x :: l' =>
      match f s x with
      | Normal s' => forEach f l' s'
      | Throw e => Throw e
      end
  end.

End Js.

(** ** The transform *)

Module Transform.
Import Js.

(** Remote data, as the spec's data model types it. *)
Record localization : Type := Localization { code : string; value : string }.
Record key_record : Type :=
  KeyRecord { key : string; localizations : list localization }.

(** Body of the inner callback (lines 194-198). *)
Definition visit (k : string) (h : heap) (l : localization)
  : completion heap :=
  let h := if is_nullish (get h (code l)) then create_inner h (code l)
           else h in
  put h (code l) k (value l).

(** Lines 190-200, from [let localizations = {}] to the end of the loops. *)
Definition transform_from (h : heap) (keys : list key_record)
  : completion heap :=
  forEach (λ h k, forEach (visit (key k)) (localizations k) h) keys h.

Definition transform (keys : list key_record) : completion heap :=
  transform_from initial_heap keys.

(** The object that [JSON.stringify] then receives, as a value. *)
Definition output_map (h : heap) : gmap string (gmap string string) :=
  obj_map <$> obj_map (own h).

(** Two heaps that hold the same values, whatever the order in which
    their properties were inserted. *)
Definition same_value (h1 h2 : heap) : Prop :=
  output_map h1 = output_map h2 ∧ object_prototype h1 = object_prototype h2.

(** Two completions that agree as values. *)
Definition same_outcome (r1 r2 : completion heap) : Prop :=
  match r1, r2 with
  | Normal h1, Normal h2 => same_value h1 h2
  | Throw e1, Throw e2 => e1 = e2
  | _, _ => False
  end.

(** *** The transform as the specification words it (section 4.3)

    [for each key record, for each localization, insert into
    output[code][key] = value, creating the inner map on first sight of a
    code]. *)
Definition spec_insert (out : gmap string (gmap string string))
    (c k v : string) : gmap string (gmap string string) :=
  <[c := <[k := v]> (default ∅ (out !! c))]> out.

Definition spec_transform_from (out : gmap string (gmap string string))
    (keys : list key_record) : gmap string (gmap string string) :=
  foldl (λ out k,
           foldl (λ out l, spec_insert out (code l) (key k) (value l))
                 out (localizations k))
        out keys.

Definition spec_transform (keys : list key_record)
  : gmap string (gmap string string) :=
  spec_transform_from ∅ keys.

(** The (code, key, value) triples in the order the loops visit them. *)
Definition writes (keys : list key_record) : list (string * string * string) :=
  flat_map (λ k, map (λ l, (code l, key k, value l)) (localizations k)) keys.

(** The value of the last triple for a given (code, key) pair. *)
Fixpoint last_written (c k : string) (ws : list (string * string * string))
  : option string :=
  match ws with
  | [] => None
  | (c', k', v) :: ws' =>
      match last_written c k ws' with
      | Some v' => Some v'
      | None => if decide (c' = c ∧ k' = k) then Some v else None
      end
  end.

(** The (code, key) pairs that a list of triples writes to. *)
Definition write_pairs (ws : list (string * string * string))
  : list (string * string) :=
  map (λ w, (w.1.1, w.1.2)) ws.

(** [output[code][key]] on the output as a value. *)
Definition entry (out : gmap string (gmap string string)) (c k : string)
  : option string :=
  out !! c ≫= (.!! k).

(** Names under which [Object.prototype] answers before the loop starts:
    a locale code among them is never "seen for the first time". *)
Definition inherited_name (c : string) : bool :=
  bool_decide (c = "__proto__")
  || bool_decide (c ∈ object_prototype_functions).

(** A payload none of whose codes is an inherited name and none of whose
    keys is [__proto__]. *)
Definition plain_names (keys : list key_record) : Prop :=
  Forall (λ k, key k ≠ "__proto__"
               ∧ Forall (λ l, inherited_name (code l) = false)
                        (localizations k)) keys.

(** The example payload of the specification (section 8). *)
Definition example_keys : list key_record :=
  [ KeyRecord "hello" [ Localization "en" "Hi"; Localization "fr" "Salut" ] ].

(** A payload whose locale code names a property that every object
    inherits. *)
Definition inherited_code_keys : list key_record :=
  [ KeyRecord "hello" [ Localization "constructor" "Hi" ] ].

(** The same code twice for one key. *)
Definition duplicate_inherited_keys : list key_record :=
  [ KeyRecord "hello" [ Localization "constructor" "A";
                        Localization "constructor" "B" ] ].

(** The two localizations of [duplicate_inherited_keys] with a plain code,
    and the same in the opposite order. *)
Definition twice_keys : list key_record :=
  [ KeyRecord "hello" [ Localization "en" "A"; Localization "en" "B" ] ].

Definition twice_keys_reversed : list key_record :=
  [ KeyRecord "hello" [ Localization "en" "B"; Localization "en" "A" ] ].

(** A well-formed payload with a duplicate (key, code) pair. *)
Definition duplicate_keys : list key_record :=
  [ KeyRecord "hello" [ Localization "en" "Hi"; Localization "fr" "Salut" ];
    KeyRecord "bye" [ Localization "en" "Bye" ];
    KeyRecord "hello" [ Localization "en" "Hello" ] ].

(** A payload that gives one (key, code) pair twice, with one value, and
    the same localizations taken in another order. *)
Definition repeated_keys : list key_record :=
  [ KeyRecord "hello" [ Localization "en" "Hi"; Localization "fr" "Salut" ];
    KeyRecord "hello" [ Localization "en" "Hi" ] ].

Definition repeated_keys_reordered : list key_record :=
  [ KeyRecord "hello" [ Localization "fr" "Salut" ];
    KeyRecord "hello" [ Localization "en" "Hi"; Localization "en" "Hi" ] ].

(** A payload without a duplicate pair whose first record stores the
    property [x] on [Object.prototype] and whose second record has [x] for
    a locale code, and the same records in the opposite order. *)
Definition polluting_keys : list key_record :=
  [ KeyRecord "x" [ Localization "__proto__" "v" ];
    KeyRecord "hello" [ Localization "x" "Hi" ] ].

Definition polluting_keys_reversed : list key_record :=
  [ KeyRecord "hello" [ Localization "x" "Hi" ];
    KeyRecord "x" [ Localization "__proto__" "v" ] ].

End Transform.

(** ** Node's [path.dirname], POSIX flavour

    [findConfig] climbs with [path.dirname] until it reaches a fixed point,
    so the walk is modelled on the algorithm of Node's [path.posix.dirname].
    Paths are byte strings; the scan only looks for the byte of [/]. *)

Module Posix.

Definition is_slash_at (path : string) (i : nat) : bool :=
  match String.get i path with
  | Some c => Ascii.eqb c "/"
  | None => false
  end.

(** [for (let i = path.length - 1; i >= 1; --i)]: the index of the slash
    that ends the parent, once a character that is not a slash was seen. *)
Fixpoint dirname_scan (path : string) (i : nat) (matchedSlash : bool)
  : option nat :=
  match i with
  | 0 => None
  | S i' =>
      if is_slash_at path i
      then if matchedSlash then dirname_scan path i' true else Some i
      else dirname_scan path i' false
  end.

Definition dirname (path : string) : string :=
  if String.length path =? 0 then "."
  else
    let hasRoot := is_slash_at path 0 in
    match dirname_scan path (String.length path - 1) true with
    | None => if hasRoot then "/" else "."
    | Some e =>
        if hasRoot && (e =? 1) then "//" else String.substring 0 e path
    end.

(** The [k]-th ancestor of a directory. *)
Definition ancestor (k : nat) (dir : string) : string :=
  Nat.iter k dirname dir.

(** What shrinks along the walk: a fixed point of [dirname] has depth 0
    ([dirname_depth]). *)
Definition depth (path : string) : nat :=
  if bool_decide (path = "." ∨ path = "/") then 0
  else S (String.length path).

End Posix.

(** ** The command line tool *)

Module Cli.
Import Transform.

Definition configFileName : string := "apploc.config.json".
Definition apiUrl : string := "https://api.apploc.dev/".

(** *** Values and records of the program *)

(** What a [throw] carries: an [Error] object of a library or of the
    engine, known by the text its [toString()] gives; a string, as in
    [throw response.message]; or [undefined], when the envelope has no
    message. *)
Inductive thrown : Type :=
  | ThrownError (text : string)
  | ThrownString (s : string)
  | ThrownUndefined.

(** Errors that the engine itself raises in this program. *)
Inductive engine_fault : Type :=
  | TransformFault (e : Js.type_error)
  | ToStringOfUndefined
  | ParseOfUndefined.

(** The result of the [arg] library. *)
Record arg_result : Type := ArgResult {
  arg_id : option string;
  arg_secret : option string;
  arg_path : option string;
  arg_positional : list string
}.

(** The object that [parseArgumentsIntoOptions] returns. *)
Record options : Type := Options {
  opt_id : option string;
  opt_secret : option string;
  opt_path : option string;
  opt_command : option string
}.

(** The config file, [{id, secret, path}]. *)
Record config : Type := Config {
  config_id : string;
  config_secret : string;
  config_path : string
}.

(** The remote envelope, [{ok, data?, message?}]. *)
Record envelope : Type := Envelope {
  ok : bool;
  data : option string;
  message : option string
}.

(** *** The libraries and the machine

    Everything [cli] calls that is not in the repository. A run reads the
    file system before it writes, and writes at most once, so the reads
    are functions of the path. *)
Record runtime : Type := Runtime {
  (* arg *)
  arg : list string → thrown + arg_result;
  (* process *)
  cwd : string;
  (* path *)
  join : string → string → string;
  (* fs *)
  existsSync : string → bool;
  readFileSync : string → thrown + string;
  writeFileSync : string → string → option thrown;
  (* JSON *)
  parse_config : string → thrown + config;
  parse_keys : string → thrown + list key_record;
  stringify_config : config → string;
  stringify : Js.obj (Js.obj string) → string;
  (* axios and URLSearchParams *)
  axios_get : string → thrown + envelope;
  search_params : string → string → string;
  (* chalk *)
  red : string → string;
  bold : string → string;
  yellow : string → string;
  green : string → string;
  (* @inquirer/prompts *)
  confirm : string → thrown + bool;
  input : string → option string → thrown + string;
  password : string → thrown + string;
  (* the engine *)
  engine_error : engine_fault → string
}.

(** *** Effects *)

Inductive event : Type :=
  | ConsoleLog (s : string)
  | ConsoleError (s : string)
  | SpinnerStart (text : string)
  | SpinnerSuccess
  | SpinnerError
  | HttpGet (url : string)
  | WriteFile (path contents : string).

(** What a run has done so far: the events in order, [process.exitCode],
    and whether the variable [spinner] holds a spinner. *)
Record state : Type := State {
  trace : list event;
  exitCode : option nat;
  spinner : bool
}.

Definition initial_state : state := State [] None false.

(** A computation either returns or throws, and leaves a state. *)
Definition M (A : Type) : Type := state → state * (thrown + A).

Definition ret {A} (a : A) : M A := λ s, (s, inr a).
Definition throw {A} (e : thrown) : M A := λ s, (s, inl e).
Definition bind {A B} (m : M A) (f : A → M B) : M B :=
  λ s, match m s with
       | (s', inr a) => f a s'
       | (s', inl e) => (s', inl e)
       end.
Definition try_catch {A} (m : M A) (handler : thrown → M A) : M A :=
  λ s, match m s with
       | (s', inr a) => (s', inr a)
       | (s', inl e) => handler e s'
       end.
Definition lift {A} (r : thrown + A) : M A :=
  match r with inl e => throw e | inr a => ret a end.

Definition emit (e : event) : M unit :=
  λ s, (State (trace s ++ [e]) (exitCode s) (spinner s), inr tt).
Definition set_exitCode (n : nat) : M unit :=
  λ s, (State (trace s) (Some n) (spinner s), inr tt).
Definition get_spinner : M bool := λ s, (s, inr (spinner s)).
Definition createSpinner_start (text : string) : M unit :=
  λ s, (State (trace s ++ [SpinnerStart text]) (exitCode s) true, inr tt).

#[export] Instance M_ret : MRet M := @ret.
#[export] Instance M_bind : MBind M := λ A B f m, bind m f.

(** *** The functions of [cli.js] *)

(** Lines 12-33. [args['_'][0]] is [undefined] on an empty list. *)
Definition parseArgumentsIntoOptions (rt : runtime) (rawArgs : list string)
  : M options :=
  args ← lift (arg rt (drop 2 rawArgs));
  ret (Options (arg_id args) (arg_secret args) (arg_path args)
               (head (arg_positional args))).

(** [!x] for a value that is a string or [undefined]. *)
Definition falsy (x : option string) : bool :=
  match x with
  | None => true
  | Some s => bool_decide (s = "")
  end.

(** The answer to a prompt, stored in an option of [options]. *)
Definition answer (r : thrown + string) : M (option string) :=
  x ← lift r; ret (Some x).

(** Lines 35-55, called when the command is [init]. *)
Definition promptForMissingOptions (rt : runtime) (o : options) : M options :=
  if bool_decide (opt_command o = Some "init") then
    id ← (if falsy (opt_id o)
          then answer (input rt "Enter project ID" None)
          else ret (opt_id o));
    secret ← (if falsy (opt_secret o)
              then answer (password rt "Enter project secret")
              else ret (opt_secret o));
    path ← (if falsy (opt_path o)
            then answer (input rt "Enter localization path"
                               (Some "/localization.json"))
            else ret (opt_path o));
    ret (Options id secret path (opt_command o))
  else ret o.

Definition usage : string :=
"Usage: apploc <command> [options]

Commands:
  init     Initialize a new AppLoc project with the necessary configuration.
  update   Fetch and update the localization file based on the current configuration.
  help     Display this help message.

Options (only for 'init' command):
  -i, --id        Project ID.
  -s, --secret    Project secret.
  -p, --path      Path to the localization file (default: /localization.json).

Examples:
  apploc init --id myProjectID --secret myProjectSecret --path /path/to/localization.json
  apploc update".

Definition printUsage : M unit := emit (ConsoleLog usage).

(** One turn of the [while (true)] of [findConfig] (lines 79-91). *)
Inductive turn : Type :=
  | Return (r : option string)
  | Continue (currentDir : string).

Definition findConfig_turn (rt : runtime) (currentDir : string) : turn :=
  let configPath := join rt currentDir configFileName in
  if existsSync rt configPath then Return (Some configPath)
  else
    let parentDir := Posix.dirname currentDir in
    if decide (currentDir = parentDir) then Return None
    else Continue parentDir.

(** The loop, cut after [fuel] turns: [None] when the fuel runs out. *)
Fixpoint findConfig_loop (rt : runtime) (fuel : nat) (currentDir : string)
  : option (option string) :=
  match fuel with
  | 0 => None
  | S fuel' =>
      match findConfig_turn rt currentDir with
      | Return r => Some r
      | Continue parentDir => findConfig_loop rt fuel' parentDir
      end
  end.

(** Lines 75-95. The fuel is never used up ([findConfig_loop_enough]). *)
Definition findConfig (rt : runtime) (startDir : string) : option string :=
  default None (findConfig_loop rt (String.length startDir + 2) startDir).

(** [s.split('\n').join('\n       ')]. *)
Fixpoint indent (s : string) : string :=
  match s with
  | EmptyString => EmptyString
  | String c s' =>
      if Ascii.eqb c "010"
      then String c ("       " +:+ indent s')
      else String c (indent s')
  end.

(** A text without a line feed. *)
Fixpoint single_line (s : string) : bool :=
  match s with
  | EmptyString => true
  | String c s' => negb (Ascii.eqb c "010") && single_line s'
  end.

Definition error_prefix (rt : runtime) : string := red rt "error: ".

(** Lines 97-99. [message.toString()] throws on [undefined]. *)
Definition logError (rt : runtime) (message : thrown) : M unit :=
  match message with
  | ThrownError text => emit (ConsoleError (error_prefix rt +:+ indent text))
  | ThrownString s => emit (ConsoleError (error_prefix rt +:+ indent s))
  | ThrownUndefined => throw (ThrownError (engine_error rt ToStringOfUndefined))
  end.

(** Lines 101-107. *)
Definition writeFile (rt : runtime) (path contents : string) : M unit :=
  emit (WriteFile path contents);;
  match writeFileSync rt path contents with
  | Some e => throw e
  | None => ret tt
  end.

Definition readFile (rt : runtime) (path : string) : M string :=
  lift (readFileSync rt path).

(** [if (x)] for a value that is a string or [null]. *)
Definition truthy (x : option string) : bool := negb (falsy x).

Definition unchanged_message (rt : runtime) : string :=
  green rt "âœ”" +:+ " Nothing has changed since the last version".

(** Lines 206-216: compare with the file on disk, write on a change. *)
Definition write_if_changed (rt : runtime) (localizationPath newJson : string)
  : M unit :=
  changed ← (if negb (existsSync rt localizationPath) then ret true
             else old ← readFile rt localizationPath;
                  ret (negb (bool_decide (old = newJson))));
  if changed : bool then
    createSpinner_start ("Writing to " +:+ localizationPath +:+ "...");;
    writeFile rt localizationPath newJson;;
    emit SpinnerSuccess
  else
    emit (ConsoleLog (unchanged_message rt)).

(** The address of the request (lines 173-178). *)
Definition request_url (rt : runtime) (c : config) : string :=
  apiUrl +:+ "getProjectData?"
  +:+ search_params rt (config_id c) (config_secret c).

(** Lines 171-184: the request, and the check of the envelope. *)
Definition fetch (rt : runtime) (c : config) : M envelope :=
  emit (HttpGet (request_url rt c));;
  response ← lift (axios_get rt (request_url rt c));
  if negb (ok response) then
    throw (match message response with
           | Some m => ThrownString m
           | None => ThrownUndefined
           end)
  else ret response.

(** Lines 190-200 inside the program: parse, then run the loops. The
    result is the object [localizations] itself. What the loops may have
    written elsewhere (on [Object.prototype] under the code [__proto__],
    on a built-in function under a code that names one) is not handed on:
    the calls that follow in [update_try] are those of a runtime with its
    built-ins untouched, where every option object of the libraries
    inherits nothing but them. The theorems that follow a run step by step
    beyond the loops are stated for payloads of plain names and take
    [Js.object_prototype h = ∅] as a hypothesis. *)
Definition build_localizations (rt : runtime) (response : envelope)
  : M (Js.obj (Js.obj string)) :=
  keys ← (match data response with
          | Some d => lift (parse_keys rt d)
          | None => throw (ThrownError (engine_error rt ParseOfUndefined))
          end);
  match transform keys with
  | Js.Normal h => ret (Js.own h)
  | Js.Throw e => throw (ThrownError (engine_error rt (TransformFault e)))
  end.

(** Lines 167-216, the body of [try]. *)
Definition update_try (rt : runtime) (configPath : string) : M unit :=
  text ← readFile rt configPath;
  c ← lift (parse_config rt text);
  createSpinner_start "Fetching updates...";;
  response ← fetch rt c;
  emit SpinnerSuccess;;
  createSpinner_start "Creating optimized localizations...";;
  localizations ← build_localizations rt response;
  let newJson := stringify rt localizations in
  emit SpinnerSuccess;;
  let localizationPath :=
    join rt (Posix.dirname configPath) (config_path c) in
  write_if_changed rt localizationPath newJson.

(** Lines 217-225, the body of [catch]. *)
Definition update_catch (rt : runtime) (error : thrown) : M unit :=
  sp ← get_spinner;
  (if sp : bool then emit SpinnerError else ret tt);;
  logError rt error;;
  set_exitCode 1.

Definition missing_config_message (rt : runtime) (workingDirectory : string)
  : string :=
  "unable to find " +:+ configFileName +:+ " in " +:+ bold rt workingDirectory
  +:+ " or any of its parents
initialize your project by executing " +:+ bold rt "apploc init".

(** Lines 148-225, the [update] branch. *)
Definition update (rt : runtime) (workingDirectory : string) : M unit :=
  let configPath := findConfig rt workingDirectory in
  if negb (truthy configPath) then
    logError rt (ThrownString (missing_config_message rt workingDirectory));;
    set_exitCode 1
  else
    try_catch (update_try rt (default "" configPath)) (update_catch rt).

(** Lines 124-147, the [init] branch. *)
Definition init (rt : runtime) (o : options) (workingDirectory : string)
    (configPath : option string) : M unit :=
  let newConfigPath := join rt workingDirectory configFileName in
  go ← (if truthy configPath then
          emit (ConsoleLog (yellow rt "!" +:+ " Found config at "
                            +:+ bold rt (default "" configPath)));;
          lift (confirm rt ("Do you still want to create "
                            +:+ newConfigPath +:+ "?"))
        else ret true);
  if go : bool then
    o ← promptForMissingOptions rt o;
    let c := Config (default "" (opt_id o)) (default "" (opt_secret o))
                    (default "" (opt_path o)) in
    writeFile rt newConfigPath (stringify_config rt c);;
    emit (ConsoleLog ("Saved to " +:+ bold rt newConfigPath
                      +:+ "
Now you can execute " +:+ bold rt "apploc update"
                      +:+ " to check the validity of the config."))
  else ret tt.

(** Lines 109-231. *)
Definition cli (rt : runtime) (args : list string) : M unit :=
  o ← parseArgumentsIntoOptions rt args;
  (if falsy (opt_command o) then set_exitCode 1 else ret tt);;
  if falsy (opt_command o) || bool_decide (opt_command o = Some "help")
  then printUsage
  else
    let workingDirectory := cwd rt in
    let configPath := findConfig rt workingDirectory in
    if bool_decide (opt_command o = Some "init")
    then init rt o workingDirectory configPath
    else if bool_decide (opt_command o = Some "update")
    then update rt workingDirectory
    else
      logError rt (ThrownString ("unknown command: "
                                 +:+ default "" (opt_command o)));;
      set_exitCode 1.

(** *** Words of the specification about [findConfig] and [update] *)

(** A directory contains the config filename. *)
Definition contains_config (rt : runtime) (dir : string) : bool :=
  existsSync rt (join rt dir configFileName).

(** [d] is the nearest ancestor of [startDir], itself included, that
    contains the config filename. *)
Definition is_nearest (rt : runtime) (startDir d : string) : Prop :=
  ∃ k, d = Posix.ancestor k startDir
       ∧ contains_config rt d = true
       ∧ ∀ j, j < k → contains_config rt (Posix.ancestor j startDir) = false.

(** The ways in which the [update] path fails before the final write,
    for the config file at [configPath]. *)
Inductive fails_before_write (rt : runtime) (configPath : string) : Prop :=
  | config_unreadable e :
      readFileSync rt configPath = inl e →
      fails_before_write rt configPath
  | config_unparsable text e :
      readFileSync rt configPath = inr text →
      parse_config rt text = inl e →
      fails_before_write rt configPath
  | request_failed text c e :
      readFileSync rt configPath = inr text →
      parse_config rt text = inr c →
      axios_get rt (request_url rt c) = inl e →
      fails_before_write rt configPath
  | envelope_not_ok text c response :
      readFileSync rt configPath = inr text →
      parse_config rt text = inr c →
      axios_get rt (request_url rt c) = inr response →
      ok response = false →
      fails_before_write rt configPath
  | data_missing text c response :
      readFileSync rt configPath = inr text →
      parse_config rt text = inr c →
      axios_get rt (request_url rt c) = inr response →
      data response = None →
      fails_before_write rt configPath
  | data_unparsable text c response d e :
      readFileSync rt configPath = inr text →
      parse_config rt text = inr c →
      axios_get rt (request_url rt c) = inr response →
      data response = Some d →
      parse_keys rt d = inl e →
      fails_before_write rt configPath
  | transform_throws text c response d keys e :
      readFileSync rt configPath = inr text →
      parse_config rt text = inr c →
      axios_get rt (request_url rt c) = inr response →
      data response = Some d →
      parse_keys rt d = inr keys →
      transform keys = Js.Throw e →
      fails_before_write rt configPath.

(** The command that [cli] sees in [args]. *)
Definition command_of (rt : runtime) (args : list string)
  : option (option string) :=
  match arg rt (drop 2 args) with
  | inr a => Some (head (arg_positional a))
  | inl _ => None
  end.

(** A whole run of the program, from a fresh process. *)
Definition run (rt : runtime) (args : list string) : state * (thrown + unit) :=
  cli rt args initial_state.

(** The exit code of the process when [cli] has returned. *)
Definition exit_code (s : state) : nat := default 0 (exitCode s).

(** A computation that leaves [process.exitCode] as it finds it. *)
Definition keeps_exitCode {A} (m : M A) : Prop :=
  ∀ s, exitCode (m s).1 = exitCode s.

Definition is_write (e : event) : bool :=
  match e with WriteFile _ _ => true | _ => false end.
Definition is_request (e : event) : bool :=
  match e with HttpGet _ => true | _ => false end.

End Cli.

(** ** A machine to run the program on

    A project in [/work] with its config file and a localization file, a
    shell in [/work/app], and a server whose answer is a parameter. *)

Module Demo.
Import Transform Cli.

Definition quote : string := String "034" EmptyString.

Definition stringify_string (s : string) : string := quote +:+ s +:+ quote.

Definition stringify_inner (o : Js.obj string) : string :=
  "{" +:+ String.concat ","
            (map (λ '(k, v), stringify_string k +:+ ":" +:+ stringify_string v) o)
  +:+ "}".

(** [JSON.stringify] on names and values that need no escape. *)
Definition stringify_object (o : Js.obj (Js.obj string)) : string :=
  "{" +:+ String.concat ","
            (map (λ '(k, v), stringify_string k +:+ ":" +:+ stringify_inner v) o)
  +:+ "}".

Definition stored_config : config := Config "p1" "s3cret" "localization.json".

Definition config_text : string := "<config>".
Definition keys_text : string := "<keys>".

Definition machine (files : list (string * string))
    (response : thrown + envelope) : runtime :=
  {| arg := λ argv, inr (ArgResult None None None argv);
     cwd := "/work/app";
     join := λ dir name,
       if bool_decide (dir = "/") then dir +:+ name else dir +:+ "/" +:+ name;
     existsSync := λ p, bool_decide (is_Some (Js.obj_get p files));
     readFileSync := λ p,
       match Js.obj_get p files with
       | Some contents => inr contents
       | None => inl (ThrownError "Error: ENOENT: no such file or directory")
       end;
     writeFileSync := λ _ _, None;
     parse_config := λ text,
       if bool_decide (text = config_text) then inr stored_config
       else inl (ThrownError "SyntaxError: Unexpected token");
     parse_keys := λ text,
       if bool_decide (text = keys_text) then inr example_keys
       else inl (ThrownError "SyntaxError: Unexpected token");
     stringify_config := λ _, config_text;
     stringify := stringify_object;
     axios_get := λ _, response;
     search_params := λ i s, "id=" +:+ i +:+ "&secret=" +:+ s;
     red := λ s, s;
     bold := λ s, s;
     yellow := λ s, s;
     green := λ s, s;
     confirm := λ _, inr false;
     input := λ _ d, inr (default "p1" d);
     password := λ _, inr "s3cret";
     engine_error := λ _, "TypeError" |}.

Definition project_files : list (string * string) :=
  [ ("/work/apploc.config.json", config_text);
    ("/work/localization.json", "{}") ].

Definition accepted : thrown + envelope :=
  inr (Envelope true (Some keys_text) None).

Definition bad_secret : thrown + envelope :=
  inr (Envelope false None (Some "bad secret")).

Definition no_message : thrown + envelope :=
  inr (Envelope false None None).

Definition update_args : list string := ["node"; "apploc"; "update"].

(** The project after a first [update]: the localization file holds what
    the server's keys serialize to. *)
Definition up_to_date_files : list (string * string) :=
  [ ("/work/apploc.config.json", config_text);
    ("/work/localization.json",
     stringify_object [ ("en", [("hello", "Hi")]); ("fr", [("hello", "Salut")]) ]) ].

End Demo.

(** ** Vocabulary for the rest of the program *)

Module Coverage.
Import Js.
Import Transform.

(** The loops as one pass over the triples. *)
Definition visit_write (h : heap) (w : string * string * string)
  : completion heap :=
  visit w.1.2 h (Localization w.1.1 w.2).

(** What holds of the output object after the triples [ws]: no own property
    under an inherited name, and every entry is the last value written to
    its pair, under a key other than [__proto__]. *)
Definition sound_for (ws : list (string * string * string)) (h : heap) : Prop :=
  (∀ c, inherited_name c = true → output_map h !! c = None)
  ∧ (∀ c k v, entry (output_map h) c k = Some v →
              k ≠ "__proto__" ∧ last_written c k ws = Some v).
End Coverage.

Module Observe.
Import Cli.

(** A computation that sets [process.exitCode] to 1 or leaves it. *)
Definition sets_exitCode_to_1_only {A} (m : M A) : Prop :=
  ∀ s, exitCode (m s).1 = exitCode s ∨ exitCode (m s).1 = Some 1.

(** A computation all of whose events satisfy [Q]. *)
Definition emits_only {A} (Q : event → Prop) (m : M A) : Prop :=
  ∀ s, ∃ evs, trace (m s).1 = trace s ++ evs ∧ Forall Q evs.

(** A computation with at most [n] events of the kind [f]. *)
Definition emits_at_most {A} (f : event → bool) (n : nat) (m : M A) : Prop :=
  ∀ s, ∃ evs, trace (m s).1 = trace s ++ evs
              ∧ length (List.filter f evs) ≤ n.

(** An event that is not of the kind [f]. *)
Definition is_not (f : event → bool) (e : event) : Prop := f e = false.

(** A line on standard error that begins with the error prefix. *)
Definition prefixed (rt : runtime) (e : event) : Prop :=
  ∀ t, e = ConsoleError t → ∃ body, t = error_prefix rt +:+ body.

(** What [cli] passes on from the result of [arg]. *)
Definition options_of (a : arg_result) : options :=
  Options (arg_id a) (arg_secret a) (arg_path a) (head (arg_positional a)).

(** An event that is neither a request nor a write. *)
Definition quiet (e : event) : Prop := is_request e = false ∧ is_write e = false.

(** Where [update] puts the localization file (line 206). *)
Definition localization_path (rt : runtime) (configPath : string) (c : config)
  : string :=
  join rt (Posix.dirname configPath) (config_path c).

(** The [update] path up to the comparison: the config [c] is read from
    [configPath], the server accepts and sends the keys list [keys], and
    the loops leave the heap [h]. *)
Inductive reaches_comparison (rt : runtime) (configPath : string)
    (c : config) (keys : list Transform.key_record) (h : Js.heap) : Prop :=
  | all_steps_pass text response d :
      readFileSync rt configPath = inr text →
      parse_config rt text = inr c →
      axios_get rt (request_url rt c) = inr response →
      ok response = true →
      data response = Some d →
      parse_keys rt d = inr keys →
      Transform.transform keys = Js.Normal h →
      reaches_comparison rt configPath c keys h.

(** The events of [update] before the comparison. *)
Definition fetched_events (rt : runtime) (c : config) : list event :=
  [ SpinnerStart "Fetching updates...";
    HttpGet (request_url rt c);
    SpinnerSuccess;
    SpinnerStart "Creating optimized localizations...";
    SpinnerSuccess ].

(** The last line of a successful [init]. *)
Definition saved_message (rt : runtime) (newConfigPath : string) : string :=
  "Saved to " +:+ bold rt newConfigPath +:+ "
Now you can execute " +:+ bold rt "apploc update"
  +:+ " to check the validity of the config.".

End Observe.

(** ** More machines *)

Module Bench.
Import Transform Cli.

(** A machine whose [arg] answers [a]. *)
Definition with_arguments (a : arg_result) (rt : runtime) : runtime :=
  Runtime (λ _, inr a) (cwd rt) (join rt) (existsSync rt) (readFileSync rt)
    (writeFileSync rt) (parse_config rt) (parse_keys rt) (stringify_config rt)
    (stringify rt) (axios_get rt) (search_params rt) (red rt) (bold rt)
    (yellow rt) (green rt) (confirm rt) (input rt) (password rt)
    (engine_error rt).

(** A machine on which every write throws [e]. *)
Definition with_failing_writes (e : thrown) (rt : runtime) : runtime :=
  Runtime (arg rt) (cwd rt) (join rt) (existsSync rt) (readFileSync rt)
    (λ _ _, Some e) (parse_config rt) (parse_keys rt) (stringify_config rt)
    (stringify rt) (axios_get rt) (search_params rt) (red rt) (bold rt)
    (yellow rt) (green rt) (confirm rt) (input rt) (password rt)
    (engine_error rt).

(** A machine on which [dir] is a directory: it exists, and reading it
    throws [e]. *)
Definition with_directory (dir : string) (e : thrown) (rt : runtime) : runtime :=
  Runtime (arg rt) (cwd rt) (join rt)
    (λ p, bool_decide (p = dir) || existsSync rt p)
    (λ p, if bool_decide (p = dir) then inl e else readFileSync rt p)
    (writeFileSync rt) (parse_config rt) (parse_keys rt) (stringify_config rt)
    (stringify rt) (axios_get rt) (search_params rt) (red rt) (bold rt)
    (yellow rt) (green rt) (confirm rt) (input rt) (password rt)
    (engine_error rt).

Definition init_args : list string := ["node"; "apploc"; "init"].

(** [apploc init -i p1 -s s3cret -p /localization.json], as [arg] parses it. *)
Definition init_arguments : arg_result :=
  ArgResult (Some "p1") (Some "s3cret") (Some "/localization.json") ["init"].

Definition access_denied : thrown :=
  ThrownError "Error: EACCES: permission denied".

Definition is_a_directory : thrown :=
  ThrownError "Error: EISDIR: illegal operation on a directory, read".

Definition unreachable : thrown :=
  ThrownError "Error: getaddrinfo ENOTFOUND api.apploc.dev".

(** A disk whose only config file is in the root directory. *)
Definition root_files : list (string * string) :=
  [ ("/apploc.config.json", Demo.config_text) ].

(** A disk whose config file is not JSON. *)
Definition broken_files : list (string * string) :=
  [ ("/work/apploc.config.json", "{id:") ].

(** A disk with the config file and no localization file yet. *)
Definition config_only_files : list (string * string) :=
  [ ("/work/apploc.config.json", Demo.config_text) ].

(** A payload with an inherited code, a plain code and a duplicate pair. *)
Definition mixed_keys : list key_record :=
  [ KeyRecord "hello" [ Localization "constructor" "X";
                        Localization "en" "A";
                        Localization "en" "B" ] ].

(** The heap that the loops leave on the example payload. *)
Definition example_heap : Js.heap :=
  Js.Heap [ ("en", [("hello", "Hi")]); ("fr", [("hello", "Salut")]) ] ∅.

(** The example payload with its two localizations in the other order. *)
Definition example_keys_reversed : list key_record :=
  [ KeyRecord "hello" [ Localization "fr" "Salut"; Localization "en" "Hi" ] ].

End Bench.

(** * Properties *)

(** ** Objects as values *)

Module JsFacts.
Import Js.

Section Objects.
Context {A : Type}.
Implicit Types (o : obj A) (k : string) (v : A).

Lemma obj_map_lookup o k : obj_map o !! k = obj_get k o.
Proof.
  unfold obj_map. induction o as [|[k' v'] o IH]; simpl; [done|].
  destruct (decide (k' = k)) as [->|Hne].
  - by rewrite lookup_insert_eq.
  - by rewrite lookup_insert_ne.
Qed.

Lemma obj_map_set o k v : obj_map (obj_set k v o) = <[k := v]> (obj_map o).
Proof.
  unfold obj_map. induction o as [|[k' v'] o IH]; simpl; [done|].
  destruct (decide (k' = k)) as [->|Hne]; simpl.
  - by rewrite insert_insert_eq.
  - rewrite IH. by apply insert_insert_ne.
Qed.

Lemma obj_get_set_eq o k v : obj_get k (obj_set k v o) = Some v.
Proof. by rewrite <- obj_map_lookup, obj_map_set, lookup_insert_eq. Qed.

Lemma obj_get_set_ne o k k' v :
  k ≠ k' → obj_get k' (obj_set k v o) = obj_get k' o.
Proof.
  intros. by rewrite <- !obj_map_lookup, obj_map_set, lookup_insert_ne.
Qed.
End Objects.

Lemma forEach_app {B S} (f : S → B → completion S) (l1 l2 : list B) (s : S) :
  forEach f (l1 ++ l2) s =
    match forEach f l1 s with
    | Normal s' => forEach f l2 s'
    | Throw e => Throw e
    end.
Proof.
  revert s. induction l1 as [|x l1 IH]; intros s; simpl; [done|].
  destruct (f s x); [apply IH | done].
Qed.

End JsFacts.

(** ** The transform loop *)

Module TransformFacts.
Import Js Transform JsFacts.

Lemma output_map_lookup h c :
  output_map h !! c = obj_map <$> obj_get c (own h).
Proof. unfold output_map. by rewrite lookup_fmap, obj_map_lookup. Qed.

Lemma output_map_set h c o :
  output_map (Heap (obj_set c o (own h)) (object_prototype h))
  = <[c := obj_map o]> (output_map h).
Proof. unfold output_map; simpl. by rewrite obj_map_set, fmap_insert. Qed.

Lemma same_value_refl h : same_value h h.
Proof. by split. Qed.

Lemma same_outcome_refl r : same_outcome r r.
Proof. destruct r; simpl; [apply same_value_refl | done]. Qed.

(** Heaps equal as values answer a read alike: both with an inner object,
    of the same value, or both with the same other reference. *)
Lemma get_same_value h1 h2 c :
  same_value h1 h2 →
  match get h1 c, get h2 c with
  | RInner o1, RInner o2 => obj_map o1 = obj_map o2
  | RInner _, _ | _, RInner _ => False
  | r1, r2 => r1 = r2
  end.
Proof.
  intros [Hout Hproto]. unfold get.
  assert (Hc := f_equal (.!! c) Hout). simpl in Hc.
  rewrite !output_map_lookup in Hc. rewrite <- Hproto.
  destruct (obj_get c (own h1)) as [o1|], (obj_get c (own h2)) as [o2|];
    simpl in Hc; try done.
  - by injection Hc.
  - destruct (decide (c = "__proto__")); [done|].
    destruct (object_prototype h1 !! c); [done|].
    by destruct (bool_decide (c ∈ object_prototype_functions)).
Qed.

Lemma create_inner_same_value h1 h2 c :
  same_value h1 h2 → same_value (create_inner h1 c) (create_inner h2 c).
Proof.
  intros [Hout Hproto]. split; [|done].
  unfold create_inner. by rewrite !output_map_set, Hout.
Qed.

Lemma put_same_value h1 h2 c k v :
  same_value h1 h2 → same_outcome (put h1 c k v) (put h2 c k v).
Proof.
  intros Hsame. assert (Hget := get_same_value h1 h2 c Hsame).
  destruct Hsame as [Hout Hproto]. unfold put.
  destruct (get h1 c) as [o1| |fn1|s1|], (get h2 c) as [o2| |fn2|s2|];
    try done; try (injection Hget as <-);
    destruct (decide (k = "__proto__")); simpl; try done.
  - split; [|done]. by rewrite !output_map_set, !obj_map_set, Hget, Hout.
  - split; simpl; [done | by rewrite Hproto].
  - destruct (function_rejects fn1 k); simpl; by try split.
Qed.

Lemma visit_same_value k h1 h2 l :
  same_value h1 h2 → same_outcome (visit k h1 l) (visit k h2 l).
Proof.
  intros Hsame. unfold visit.
  assert (Hget := get_same_value h1 h2 (code l) Hsame).
  destruct (get h1 (code l)), (get h2 (code l)); try done; simpl;
    apply put_same_value; try done.
  by apply create_inner_same_value.
Qed.

Lemma forEach_same_outcome {B} (f : heap → B → completion heap) :
  (∀ h1 h2 x, same_value h1 h2 → same_outcome (f h1 x) (f h2 x)) →
  ∀ l h1 h2, same_value h1 h2 →
             same_outcome (forEach f l h1) (forEach f l h2).
Proof.
  intros Hf l. induction l as [|x l IH]; intros h1 h2 Hsame; simpl; [done|].
  specialize (Hf h1 h2 x Hsame).
  destruct (f h1 x) as [h1'|e1], (f h2 x) as [h2'|e2]; simpl in Hf;
    try done.
  by apply IH.
Qed.

(** The loops are a function of the values held: run from two heaps that
    hold the same values, in whatever order their properties were
    inserted, on the same keys list, they end alike, with the same error
    or with output objects that are equal as maps, though not always as
    property lists. *)
Lemma transform_deterministic (keys : list key_record) (h1 h2 : heap) :
  same_value h1 h2 →
  same_outcome (transform_from h1 keys) (transform_from h2 keys).
Proof.
  unfold transform_from. apply forEach_same_outcome.
  intros h1' h2' k Hsame. apply forEach_same_outcome; [|done].
  intros ? ? ?. apply visit_same_value.
Qed.

(** *** The loop against the specification's wording *)

Lemma get_plain h c :
  object_prototype h = ∅ → inherited_name c = false →
  get h c = match obj_get c (own h) with
            | Some o => RInner o
            | None => RUndefined
            end.
Proof.
  intros Hproto Hc. unfold get. rewrite Hproto, lookup_empty.
  apply orb_false_iff in Hc as [Hp Hf]. rewrite Hf.
  apply bool_decide_eq_false in Hp.
  destruct (obj_get c (own h)); [done|]. by destruct (decide _).
Qed.

(** One turn of the inner loop on plain names is one insertion of the
    specification, and leaves [Object.prototype] as it was. *)
Lemma visit_plain k h l :
  object_prototype h = ∅ → inherited_name (code l) = false →
  k ≠ "__proto__" →
  ∃ h', visit k h l = Normal h' ∧ object_prototype h' = ∅
        ∧ output_map h' = spec_insert (output_map h) (code l) k (value l).
Proof.
  intros Hproto Hc Hk. unfold visit, spec_insert.
  rewrite (get_plain h _ Hproto Hc), output_map_lookup.
  destruct (obj_get (code l) (own h)) as [o|] eqn:Hget; simpl.
  - unfold put. rewrite (get_plain h _ Hproto Hc), Hget.
    destruct (decide _); [done|]. eexists; split; [done|]. split; [done|].
    by rewrite output_map_set, obj_map_set.
  - unfold put.
    rewrite (get_plain (create_inner h _) _ Hproto Hc); simpl.
    rewrite obj_get_set_eq. destruct (decide _); [done|].
    eexists; split; [done|]. split; [done|].
    rewrite (output_map_set (create_inner h (code l))), obj_map_set.
    unfold create_inner. rewrite output_map_set.
    by rewrite insert_insert_eq.
Qed.

Lemma spec_transform_from_writes out keys :
  spec_transform_from out keys
  = foldl (λ out '(c, k, v), spec_insert out c k v) out (writes keys).
Proof.
  unfold spec_transform_from, writes. revert out.
  induction keys as [|k keys IH]; intros out; simpl; [done|].
  rewrite foldl_app, IH. f_equal.
  generalize (localizations k) as ls. intros ls. revert out.
  induction ls as [|l ls IHl]; intros out; simpl; [done|]. apply IHl.
Qed.

(** The loops on a payload of plain names compute the specification's
    fold, from any heap whose prototype is untouched. *)
Lemma transform_from_plain keys :
  plain_names keys →
  ∀ h, object_prototype h = ∅ →
       ∃ h', transform_from h keys = Normal h' ∧ object_prototype h' = ∅
             ∧ output_map h' = spec_transform_from (output_map h) keys.
Proof.
  unfold transform_from, spec_transform_from.
  induction 1 as [|k keys [Hk Hls] _ IH]; intros h Hproto; simpl.
  { by exists h. }
  assert (∃ h1, forEach (visit (key k)) (localizations k) h = Normal h1
                ∧ object_prototype h1 = ∅
                ∧ output_map h1
                  = foldl (λ out l, spec_insert out (code l) (key k) (value l))
                          (output_map h) (localizations k))
    as (h1 & -> & Hproto1 & <-).
  { clear IH. revert h Hproto.
    induction Hls as [|l ls Hl _ IHl]; intros h Hproto; simpl.
    { by exists h. }
    destruct (visit_plain (key k) h l Hproto Hl Hk) as (h1 & -> & Hp1 & <-).
    by apply IHl. }
  by apply IH.
Qed.

Lemma output_map_initial : output_map initial_heap = ∅.
Proof. unfold output_map, obj_map; simpl. apply fmap_empty. Qed.

(** On plain names [transform] returns, and its output object is, as a
    value, the map of the specification. *)
Lemma transform_refines_spec keys :
  plain_names keys →
  ∃ h, transform keys = Normal h ∧ output_map h = spec_transform keys.
Proof.
  intros Hplain.
  destruct (transform_from_plain keys Hplain initial_heap eq_refl)
    as (h & Hrun & _ & Hout).
  exists h. split; [done|]. by rewrite Hout, output_map_initial.
Qed.

(** *** Last write wins *)

Lemma entry_spec_insert out c k v c' k' :
  entry (spec_insert out c k v) c' k'
  = if decide (c = c' ∧ k = k') then Some v else entry out c' k'.
Proof.
  unfold entry, spec_insert.
  destruct (decide (c = c')) as [->|Hc].
  - rewrite lookup_insert_eq; simpl.
    destruct (decide (k = k')) as [->|Hk].
    + rewrite lookup_insert_eq. by rewrite decide_True.
    + rewrite lookup_insert_ne by done. rewrite decide_False by (intros [? ?]; congruence).
      destruct (out !! c'); simpl; [done|]. apply lookup_empty.
  - rewrite lookup_insert_ne by done. by rewrite decide_False by (intros [? ?]; congruence).
Qed.

Lemma entry_foldl_writes ws : ∀ out c k,
  entry (foldl (λ out '(c, k, v), spec_insert out c k v) out ws) c k
  = match last_written c k ws with
    | Some v => Some v
    | None => entry out c k
    end.
Proof.
  induction ws as [|[[c' k'] v] ws IH]; intros out c k; simpl; [done|].
  rewrite IH. destruct (last_written c k ws); [done|].
  rewrite entry_spec_insert. by destruct (decide _).
Qed.

(** In the specification's map the entry of a (code, key) pair is the
    value of the last triple that names the pair. *)
Lemma spec_transform_last_written keys c k :
  entry (spec_transform keys) c k = last_written c k (writes keys).
Proof.
  unfold spec_transform. rewrite spec_transform_from_writes.
  rewrite entry_foldl_writes. by destruct (last_written c k (writes keys)).
Qed.

(** On plain names the code keeps the last value written to every
    (code, key) pair, duplicates included. *)
Lemma transform_last_write_wins keys :
  plain_names keys →
  ∃ h, transform keys = Normal h
       ∧ ∀ c k, entry (output_map h) c k = last_written c k (writes keys).
Proof.
  intros Hplain.
  destruct (transform_refines_spec keys Hplain) as (h & Hrun & Hout).
  exists h. split; [done|]. intros c k.
  rewrite Hout. apply spec_transform_last_written.
Qed.

(** *** The order of the input *)

Lemma spec_insert_comm out c1 k1 v1 c2 k2 v2 :
  (c1, k1) ≠ (c2, k2) →
  spec_insert (spec_insert out c1 k1 v1) c2 k2 v2
  = spec_insert (spec_insert out c2 k2 v2) c1 k1 v1.
Proof.
  intros Hne. unfold spec_insert.
  destruct (decide (c1 = c2)) as [->|Hc].
  - assert (k1 ≠ k2) by congruence.
    rewrite !lookup_insert_eq, !insert_insert_eq. simpl.
    f_equal. by apply insert_insert_ne.
  - rewrite !lookup_insert_ne by done.
    by apply insert_insert_ne.
Qed.

(** Triples that write to distinct pairs can be taken in any order. *)
Lemma foldl_spec_insert_permutation ws ws' :
  ws ≡ₚ ws' → NoDup (write_pairs ws) →
  ∀ out, foldl (λ out '(c, k, v), spec_insert out c k v) out ws
         = foldl (λ out '(c, k, v), spec_insert out c k v) out ws'.
Proof.
  induction 1 as [|[[c k] v] ws ws' Hperm IH
                  |[[c1 k1] v1] [[c2 k2] v2] ws
                  |ws1 ws2 ws3 H12 IH12 H23 IH23]; intros Hdup out; simpl.
  - done.
  - apply IH. by apply NoDup_cons in Hdup as [_ ?].
  - f_equal. apply spec_insert_comm.
    apply NoDup_cons in Hdup as [Hnotin _]. simpl in Hnotin.
    intros Heq. apply Hnotin. rewrite Heq. apply elem_of_cons. by left.
  - rewrite IH12 by done. apply IH23.
    unfold write_pairs in *. by rewrite <- H12.
Qed.

(** On plain names without a duplicate (code, key) pair the order in which
    the records and their localizations come does not change the output as
    a value. *)
Lemma transform_order_irrelevant keys1 keys2 :
  plain_names keys1 → plain_names keys2 →
  writes keys1 ≡ₚ writes keys2 →
  NoDup (write_pairs (writes keys1)) →
  same_outcome (transform keys1) (transform keys2).
Proof.
  intros Hplain1 Hplain2 Hperm Hdup.
  destruct (transform_from_plain keys1 Hplain1 initial_heap eq_refl)
    as (h1 & Hrun1 & Hproto1 & Hout1).
  destruct (transform_from_plain keys2 Hplain2 initial_heap eq_refl)
    as (h2 & Hrun2 & Hproto2 & Hout2).
  unfold transform. rewrite Hrun1, Hrun2. simpl.
  split; [|by rewrite Hproto1, Hproto2].
  rewrite Hout1, Hout2, !spec_transform_from_writes.
  by apply foldl_spec_insert_permutation.
Qed.

(** C8, as stated, fails where a pair is given two values: the two
    localizations of [hello] in [en], taken in one order and in the other,
    are the same triples on plain names, and the outputs differ as values,
    each holding the value that came last. *)
Example duplicate_order_matters :
  plain_names twice_keys ∧ plain_names twice_keys_reversed
  ∧ writes twice_keys ≡ₚ writes twice_keys_reversed
  ∧ transform twice_keys = Normal (Heap [("en", [("hello", "B")])] ∅)
  ∧ transform twice_keys_reversed = Normal (Heap [("en", [("hello", "A")])] ∅)
  ∧ ¬ same_outcome (transform twice_keys) (transform twice_keys_reversed).
Proof.
  assert (transform twice_keys = Normal (Heap [("en", [("hello", "B")])] ∅))
    as Hrun1 by (vm_compute; reflexivity).
  assert (transform twice_keys_reversed
          = Normal (Heap [("en", [("hello", "A")])] ∅))
    as Hrun2 by (vm_compute; reflexivity).
  split; [repeat constructor; done|].
  split; [repeat constructor; done|].
  split; [apply perm_swap|].
  split; [done|]. split; [done|].
  rewrite Hrun1, Hrun2. intros [Hout _].
  apply (f_equal (λ out, entry out "en" "hello")) in Hout.
  vm_compute in Hout. discriminate.
Qed.

(** *** The output is made of the last values written *)

Lemma last_written_elem c k v ws :
  last_written c k ws = Some v → (c, k, v) ∈ ws.
Proof.
  induction ws as [|[[c' k'] v'] ws IH]; simpl; [done|].
  destruct (last_written c k ws) as [v''|].
  - intros [= ->]. apply elem_of_cons. right. by apply IH.
  - destruct (decide (c' = c ∧ k' = k)) as [[-> ->]|]; [|done].
    intros [= ->]. apply elem_of_cons. by left.
Qed.

Lemma elem_last_written c k v ws :
  (c, k, v) ∈ ws → is_Some (last_written c k ws).
Proof.
  induction ws as [|[[c' k'] v'] ws IH]; simpl.
  { intros Hin. by apply elem_of_nil in Hin. }
  intros Hin. apply elem_of_cons in Hin as [Heq | Hin].
  - injection Heq as <- <- <-.
    destruct (last_written c k ws); [done|]. by rewrite decide_True.
  - destruct (IH Hin) as [v'' ->]. done.
Qed.

(** When no pair is given two values, the last value written to a pair is
    the value of any triple that names it, in whatever order they come. *)
Lemma last_written_agree ws1 ws2 :
  ws1 ≡ₚ ws2 →
  (∀ c k v v', (c, k, v) ∈ ws1 → (c, k, v') ∈ ws1 → v = v') →
  ∀ c k, last_written c k ws1 = last_written c k ws2.
Proof.
  intros Hperm Hfun c k.
  destruct (last_written c k ws1) as [v1|] eqn:H1,
           (last_written c k ws2) as [v2|] eqn:H2; [| | |done].
  - apply last_written_elem in H1, H2. rewrite <- Hperm in H2.
    f_equal. by apply (Hfun c k).
  - apply last_written_elem in H1. rewrite Hperm in H1.
    apply elem_last_written in H1 as [v H1]. congruence.
  - apply last_written_elem in H2. rewrite <- Hperm in H2.
    apply elem_last_written in H2 as [v H2]. congruence.
Qed.

Lemma spec_insert_inner_nonempty out c k v :
  (∀ c' m, out !! c' = Some m → m ≠ ∅) →
  ∀ c' m, spec_insert out c k v !! c' = Some m → m ≠ ∅.
Proof.
  intros Hout c' m. unfold spec_insert.
  destruct (decide (c = c')) as [->|Hne].
  - rewrite lookup_insert_eq. intros [= <-]. apply insert_non_empty.
  - rewrite lookup_insert_ne by done. apply Hout.
Qed.

Lemma foldl_spec_insert_inner_nonempty ws : ∀ out,
  (∀ c m, out !! c = Some m → m ≠ ∅) →
  ∀ c m, foldl (λ out '(c, k, v), spec_insert out c k v) out ws !! c = Some m →
         m ≠ ∅.
Proof.
  induction ws as [|[[c k] v] ws IH]; intros out Hout; simpl; [done|].
  apply IH. by apply spec_insert_inner_nonempty.
Qed.

(** A map without an empty inner map is known by its entries. *)
Lemma entry_ext (out1 out2 : gmap string (gmap string string)) :
  (∀ c m, out1 !! c = Some m → m ≠ ∅) →
  (∀ c m, out2 !! c = Some m → m ≠ ∅) →
  (∀ c k, entry out1 c k = entry out2 c k) →
  out1 = out2.
Proof.
  intros Hne1 Hne2 Hentry. apply map_eq. intros c.
  destruct (out1 !! c) as [m1|] eqn:H1, (out2 !! c) as [m2|] eqn:H2;
    [| | |done].
  - f_equal. apply map_eq. intros k. specialize (Hentry c k).
    unfold entry in Hentry. by rewrite H1, H2 in Hentry.
  - exfalso. destruct (map_choose m1 (Hne1 c m1 H1)) as (k & v & Hk).
    specialize (Hentry c k). unfold entry in Hentry.
    rewrite H1, H2 in Hentry. simpl in Hentry. congruence.
  - exfalso. destruct (map_choose m2 (Hne2 c m2 H2)) as (k & v & Hk).
    specialize (Hentry c k). unfold entry in Hentry.
    rewrite H1, H2 in Hentry. simpl in Hentry. congruence.
Qed.

(** The specification's map is a function of the last value written to
    every pair. *)
Lemma spec_transform_last_writes keys1 keys2 :
  (∀ c k, last_written c k (writes keys1) = last_written c k (writes keys2)) →
  spec_transform keys1 = spec_transform keys2.
Proof.
  intros Hlast. apply entry_ext.
  - unfold spec_transform. rewrite spec_transform_from_writes.
    apply foldl_spec_insert_inner_nonempty. intros c m. by rewrite lookup_empty.
  - unfold spec_transform. rewrite spec_transform_from_writes.
    apply foldl_spec_insert_inner_nonempty. intros c m. by rewrite lookup_empty.
  - intros c k. by rewrite !spec_transform_last_written.
Qed.

(** C8, as amended. The same keys list always gives the same output (the
    loops are a function of their input, see [transform_deterministic]);
    the order in which that input is iterated is immaterial where no
    (key, code) pair is given two different values. Let two keys lists of
    plain names hold the same (code, key, value) triples, the records and
    their localizations in any two orders, a triple as often in the one as
    in the other, and let no pair carry two values: both runs of the loops
    return, and their outputs are equal as values. A pair given twice with
    one value is admitted. With two values for one pair the later one
    stays, and the order decides ([duplicate_order_matters]); with a locale
    code that [Object.prototype] answers the order can decide even whether
    the loops throw ([pollution_order_matters]). *)
Theorem transform_iteration_order keys1 keys2 :
  plain_names keys1 → plain_names keys2 →
  writes keys1 ≡ₚ writes keys2 →
  (∀ c k v v', (c, k, v) ∈ writes keys1 → (c, k, v') ∈ writes keys1 →
               v = v') →
  ∃ h1 h2, transform keys1 = Normal h1 ∧ transform keys2 = Normal h2
           ∧ same_value h1 h2.
Proof.
  intros Hplain1 Hplain2 Hperm Hfun.
  destruct (transform_from_plain keys1 Hplain1 initial_heap eq_refl)
    as (h1 & Hrun1 & Hproto1 & Hout1).
  destruct (transform_from_plain keys2 Hplain2 initial_heap eq_refl)
    as (h2 & Hrun2 & Hproto2 & Hout2).
  exists h1, h2. split; [done|]. split; [done|].
  split; [|by rewrite Hproto1, Hproto2].
  rewrite Hout1, Hout2. apply spec_transform_last_writes.
  by apply last_written_agree.
Qed.

(** The payload that gives [hello] in [en] twice, with one value, and its
    localizations in another order. *)
Lemma transform_iteration_order_witness :
  ∃ h1 h2, transform repeated_keys = Normal h1
           ∧ transform repeated_keys_reordered = Normal h2
           ∧ same_value h1 h2.
Proof.
  apply (transform_iteration_order repeated_keys repeated_keys_reordered).
  - repeat constructor; done.
  - repeat constructor; done.
  - apply perm_swap.
  - intros c k v v' Hin Hin'. simpl in Hin, Hin'.
    repeat (apply elem_of_cons in Hin as [Hin | Hin];
            [|try (by apply elem_of_nil in Hin)]);
    repeat (apply elem_of_cons in Hin' as [Hin' | Hin'];
            [|try (by apply elem_of_nil in Hin')]);
    congruence.
Defined.

(** Off the plain names the order matters without any duplicate: a
    property stored on [Object.prototype] under the code [__proto__]
    answers a later read of a locale code of that name with a string, on
    which the assignment throws; read before it is stored, the same code
    is seen for the first time. *)
Example pollution_order_matters :
  writes polluting_keys ≡ₚ writes polluting_keys_reversed
  ∧ NoDup (write_pairs (writes polluting_keys))
  ∧ transform polluting_keys = Throw (CannotCreateProperty "hello" "v")
  ∧ transform polluting_keys_reversed
    = Normal (Heap [("x", [("hello", "Hi")])] {[ "x" := "v" ]}).
Proof.
  split; [apply perm_swap|].
  split.
  { simpl. apply NoDup_cons. split.
    - intros Hin. apply list_elem_of_singleton in Hin. discriminate.
    - apply NoDup_singleton. }
  split; vm_compute; reflexivity.
Qed.

(** *** Concrete runs *)

(** The example of the specification (section 8): the payload with the
    key [hello] in [en] and [fr] gives [{en: {hello: Hi}, fr: {hello:
    Salut}}], which is also what the specification's fold gives. *)
Example transform_example :
  transform example_keys
  = Normal (Heap [ ("en", [("hello", "Hi")]); ("fr", [("hello", "Salut")]) ] ∅)
  ∧ spec_transform example_keys
    = {[ "en" := {[ "hello" := "Hi" ]}; "fr" := {[ "hello" := "Salut" ]} ]}.
Proof. split; vm_compute; reflexivity. Qed.

Lemma plain_names_example : plain_names example_keys.
Proof. repeat constructor; done. Qed.

Lemma plain_names_duplicate : plain_names duplicate_keys.
Proof. repeat constructor; done. Qed.

(** Duplicates in a payload of plain names: the later [hello]/[en] wins,
    and the property keeps the place of its first insertion. *)
Example transform_duplicate :
  transform duplicate_keys
  = Normal (Heap [ ("en", [("hello", "Hello"); ("bye", "Bye")]);
                   ("fr", [("hello", "Salut")]) ] ∅)
  ∧ last_written "en" "hello" (writes duplicate_keys) = Some "Hello".
Proof. split; vm_compute; reflexivity. Qed.

(** C1, at the payload [{keys: [{key: hello, localizations: [{code:
    constructor, value: Hi}]}]}]. The read [localizations["constructor"]]
    finds [Object] on the prototype chain, so it is not nullish, no inner
    map is created and the write lands on that function: the loops end
    normally with an output object that has no property at all, where the
    specification's fold has [{constructor: {hello: Hi}}]. *)
Theorem transform_inherited_code_lost :
  transform inherited_code_keys = Normal initial_heap
  ∧ output_map initial_heap !! "constructor" = None
  ∧ spec_transform inherited_code_keys !! "constructor"
    = Some {[ "hello" := "Hi" ]}.
Proof. repeat split; vm_compute; reflexivity. Qed.

(** C7, at the payload [{keys: [{key: hello, localizations: [{code:
    constructor, value: A}, {code: constructor, value: B}]}]}]. Both
    writes go to the inherited [Object] function, the output object stays
    empty, and the entry of ([constructor], [hello]) is absent instead of
    being [B], the last value written. *)
Theorem transform_duplicate_inherited_lost :
  transform duplicate_inherited_keys = Normal initial_heap
  ∧ entry (output_map initial_heap) "constructor" "hello" = None
  ∧ last_written "constructor" "hello" (writes duplicate_inherited_keys)
    = Some "B".
Proof. repeat split; vm_compute; reflexivity. Qed.

(** Equal as values, different as texts: the same two properties in
    opposite orders serialize differently. *)
Example same_value_other_text :
  same_value (Heap [("en", []); ("fr", [])] ∅) (Heap [("fr", []); ("en", [])] ∅)
  ∧ Demo.stringify_object [("en", []); ("fr", [])]
    ≠ Demo.stringify_object [("fr", []); ("en", [])].
Proof. split; [split; vm_compute; reflexivity | by vm_compute]. Qed.

(** Two objects with the same properties inserted in opposite orders, and
    the loops run from each: the results agree as values. *)
Lemma transform_deterministic_witness :
  same_value (Heap [("en", []); ("fr", [])] ∅) (Heap [("fr", []); ("en", [])] ∅)
  ∧ same_outcome
      (transform_from (Heap [("en", []); ("fr", [])] ∅) example_keys)
      (transform_from (Heap [("fr", []); ("en", [])] ∅) example_keys).
Proof.
  assert (same_value (Heap [("en", []); ("fr", [])] ∅)
                     (Heap [("fr", []); ("en", [])] ∅)) as Hsame.
  { split; vm_compute; reflexivity. }
  split; [exact Hsame|].
  exact (transform_deterministic example_keys _ _ Hsame).
Defined.

End TransformFacts.

(** ** The walk towards the root *)

Module PosixFacts.
Import Posix.

Lemma length_substring_0 (s : string) : ∀ e,
  e ≤ String.length s → String.length (String.substring 0 e s) = e.
Proof.
  induction s as [|c s IH]; intros [|e] He; simpl in *; try done; [lia|].
  rewrite IH; [done | lia].
Qed.

(** The scan answers an index between 1 and where it started, and below
    the start when it began in the run of trailing slashes. *)
Lemma dirname_scan_bound path : ∀ i matchedSlash e,
  dirname_scan path i matchedSlash = Some e →
  1 ≤ e ∧ e ≤ i ∧ (matchedSlash = true → e < i).
Proof.
  induction i as [|i IH]; intros m e; simpl; [done|].
  destruct (is_slash_at path (S i)).
  - destruct m.
    + intros H. apply IH in H as (? & ? & Hlt). specialize (Hlt eq_refl). lia.
    + intros [= <-]. repeat split; [lia | lia | done].
  - intros H. apply IH in H as (? & ? & _). repeat split; [lia | lia | lia].
Qed.

Lemma dirname_fixed path :
  path = "." ∨ path = "/" → dirname path = path.
Proof. by intros [-> | ->]. Qed.

Lemma depth_values : depth "." = 0 ∧ depth "/" = 0 ∧ depth "//" = 3.
Proof. repeat split; vm_compute; reflexivity. Qed.

(** Every step that moves, moves to a path of smaller depth. *)
Lemma dirname_depth path :
  dirname path ≠ path → depth (dirname path) < depth path.
Proof.
  intros Hmove.
  assert (depth path = S (String.length path)) as ->.
  { unfold depth. case_bool_decide as Hfix; [|done].
    by apply dirname_fixed in Hfix. }
  clear Hmove. unfold dirname.
  destruct depth_values as (Hdot & Hroot & Hroot2).
  destruct (String.length path =? 0) eqn:Hlen; [rewrite Hdot; lia|].
  apply Nat.eqb_neq in Hlen.
  destruct (dirname_scan path (String.length path - 1) true) as [e|] eqn:Hscan.
  - apply dirname_scan_bound in Hscan as (He1 & He2 & He3).
    specialize (He3 eq_refl).
    destruct (is_slash_at path 0 && (e =? 1)) eqn:Htwo.
    + apply andb_true_iff in Htwo as [_ ->%Nat.eqb_eq]. rewrite Hroot2. lia.
    + unfold depth. case_bool_decide; [lia|].
      rewrite length_substring_0; lia.
  - destruct (is_slash_at path 0); rewrite ?Hdot, ?Hroot; lia.
Qed.

Lemma depth_bound path : depth path ≤ S (String.length path).
Proof. unfold depth. case_bool_decide; lia. Qed.

Lemma ancestor_succ k dir : ancestor (S k) dir = dirname (ancestor k dir).
Proof. done. Qed.

Lemma ancestor_shift k dir : ancestor (S k) dir = ancestor k (dirname dir).
Proof. unfold ancestor. by rewrite Nat.iter_succ_r. Qed.

(** Above a fixed point every ancestor is the fixed point. *)
Lemma ancestor_fixed dir :
  dirname dir = dir → ∀ k, ancestor k dir = dir.
Proof.
  intros Hfix k. induction k as [|k IH]; [done|].
  by rewrite ancestor_succ, IH.
Qed.

Lemma ancestor_add j k dir : ancestor (j + k) dir = ancestor j (ancestor k dir).
Proof.
  induction j as [|j IH]; [done|].
  change (S j + k) with (S (j + k)). by rewrite !ancestor_succ, IH.
Qed.

End PosixFacts.

(** ** The config locator *)

Module LocatorFacts.
Import Posix PosixFacts Cli.

Lemma findConfig_turn_continue rt dir dir' :
  findConfig_turn rt dir = Continue dir' →
  dir' = dirname dir ∧ dirname dir ≠ dir ∧ contains_config rt dir = false.
Proof.
  unfold findConfig_turn, contains_config.
  destruct (existsSync rt _); [done|].
  destruct (decide (dir = dirname dir)); [done|]. by intros [= <-].
Qed.

Lemma findConfig_turn_found rt dir p :
  findConfig_turn rt dir = Return (Some p) →
  contains_config rt dir = true ∧ p = join rt dir configFileName.
Proof.
  unfold findConfig_turn, contains_config.
  destruct (existsSync rt _); [by intros [= <-]|].
  by destruct (decide (dir = dirname dir)).
Qed.

Lemma findConfig_turn_not_found rt dir :
  findConfig_turn rt dir = Return None →
  contains_config rt dir = false ∧ dirname dir = dir.
Proof.
  unfold findConfig_turn, contains_config.
  destruct (existsSync rt _); [done|].
  by destruct (decide (dir = dirname dir)).
Qed.

(** The walk from [dir]: [n] turns that climb, then a turn that returns;
    [n] is at most the depth of [dir], and any fuel above [n] is enough. *)
Lemma findConfig_walk rt : ∀ m dir,
  depth dir ≤ m →
  ∃ n r, n ≤ m
    ∧ (∀ j, j < n →
         findConfig_turn rt (ancestor j dir) = Continue (ancestor (S j) dir))
    ∧ findConfig_turn rt (ancestor n dir) = Return r
    ∧ (∀ fuel, n < fuel → findConfig_loop rt fuel dir = Some r).
Proof.
  induction m as [|m IH]; intros dir Hdepth;
    destruct (findConfig_turn rt dir) as [r|dir'] eqn:Hturn.
  1,3: exists 0, r; repeat split; [lia | intros; lia | done |];
       intros [|fuel] ?; [lia|]; simpl; by rewrite Hturn.
  - apply findConfig_turn_continue in Hturn as (_ & Hmove & _).
    apply dirname_depth in Hmove. lia.
  - pose proof Hturn as (-> & Hmove & _)%findConfig_turn_continue.
    apply dirname_depth in Hmove.
    destruct (IH (dirname dir)) as (n & r & Hn & Hclimb & Hret & Hfuel); [lia|].
    exists (S n), r. repeat split; [lia | | |].
    + intros [|j] Hj; [done|]. rewrite !(ancestor_shift _ dir).
      apply Hclimb. lia.
    + by rewrite ancestor_shift.
    + intros [|fuel] ?; [lia|]. simpl. rewrite Hturn. apply Hfuel. lia.
Qed.

Lemma findConfig_loop_enough rt startDir :
  findConfig_loop rt (String.length startDir + 2) startDir
  = Some (findConfig rt startDir).
Proof.
  destruct (findConfig_walk rt _ startDir (depth_bound startDir))
    as (n & r & Hn & _ & _ & Hfuel).
  unfold findConfig. rewrite Hfuel; [done | lia].
Qed.

(** C9. From every starting path the loop of [findConfig] ends: it makes
    [n] turns that each move to the parent directory, [n] at most the
    length of the path plus one, then a turn that returns, so every fuel
    above [n] gives the result and [findConfig] is that result; and when
    the loop ends without a config file, the directory it stopped at is its
    own parent, the root. *)
Theorem findConfig_terminates rt startDir :
  ∃ n r, n ≤ S (String.length startDir)
    ∧ (∀ j, j < n →
         findConfig_turn rt (ancestor j startDir)
         = Continue (dirname (ancestor j startDir)))
    ∧ findConfig_turn rt (ancestor n startDir) = Return r
    ∧ (∀ fuel, n < fuel → findConfig_loop rt fuel startDir = Some r)
    ∧ findConfig rt startDir = r
    ∧ (r = None → dirname (ancestor n startDir) = ancestor n startDir).
Proof.
  destruct (findConfig_walk rt _ startDir (depth_bound startDir))
    as (n & r & Hn & Hclimb & Hret & Hfuel).
  exists n, r. repeat split; try done.
  - unfold findConfig. rewrite Hfuel; [done | lia].
  - intros ->. by apply findConfig_turn_not_found in Hret as [_ ?].
Qed.

(** The result of [findConfig], read off the walk. *)
Lemma findConfig_result rt startDir :
  ∃ n, (∀ j, j < n → contains_config rt (ancestor j startDir) = false)
    ∧ ((contains_config rt (ancestor n startDir) = true
        ∧ findConfig rt startDir
          = Some (join rt (ancestor n startDir) configFileName))
       ∨ (contains_config rt (ancestor n startDir) = false
          ∧ dirname (ancestor n startDir) = ancestor n startDir
          ∧ findConfig rt startDir = None)).
Proof.
  destruct (findConfig_walk rt _ startDir (depth_bound startDir))
    as (n & r & Hn & Hclimb & Hret & Hfuel).
  assert (findConfig rt startDir = r) as Hfind.
  { unfold findConfig. rewrite Hfuel; [done | lia]. }
  exists n. split.
  - intros j Hj. by apply Hclimb, findConfig_turn_continue in Hj as (_ & _ & ?).
  - rewrite Hfind. destruct r as [p|].
    + left. by apply findConfig_turn_found in Hret as [? ->].
    + right. by apply findConfig_turn_not_found in Hret as [? ?].
Qed.

Lemma findConfig_none rt startDir :
  findConfig rt startDir = None
  ↔ ∀ k, contains_config rt (ancestor k startDir) = false.
Proof.
  destruct (findConfig_result rt startDir)
    as (n & Hbelow & [[Hn Hfind] | (Hn & Hroot & Hfind)]); rewrite Hfind.
  - split; [done|]. intros Hall. by rewrite Hall in Hn.
  - split; [|done]. intros _ k.
    destruct (decide (k < n)) as [?|Hge]; [by apply Hbelow|].
    replace k with ((k - n) + n) by lia.
    by rewrite ancestor_add, (ancestor_fixed _ Hroot).
Qed.

Lemma findConfig_some rt startDir p :
  findConfig rt startDir = Some p
  ↔ ∃ d, is_nearest rt startDir d ∧ p = join rt d configFileName.
Proof.
  destruct (findConfig_result rt startDir)
    as (n & Hbelow & [[Hn Hfind] | (Hn & Hroot & Hfind)]); rewrite Hfind.
  - split.
    + intros [= <-]. eexists; split; [|done]. by exists n.
    + intros (d & (k & -> & Hk & Hbelow') & ->).
      destruct (lt_eq_lt_dec k n) as [[Hlt | ->] | Hgt]; [| done |].
      * by rewrite (Hbelow k Hlt) in Hk.
      * by rewrite (Hbelow' n Hgt) in Hn.
  - split; [done|]. intros (d & (k & -> & Hk & _) & _).
    apply (findConfig_none rt startDir) with (k := k) in Hfind. congruence.
Qed.

(** C3, as amended. [findConfig] returns the path of the config file in
    the nearest ancestor directory that contains the config filename, the
    starting directory included: the directory joined with
    [apploc.config.json], and no other path; and it returns [null], without
    throwing, exactly when no ancestor up to the root contains it. *)
Theorem findConfig_nearest rt startDir :
  (∀ p, findConfig rt startDir = Some p
        ↔ ∃ d, is_nearest rt startDir d ∧ p = join rt d configFileName)
  ∧ (findConfig rt startDir = None
     ↔ ∀ k, contains_config rt (ancestor k startDir) = false).
Proof.
  split; [intros p; apply findConfig_some | apply findConfig_none].
Qed.

(** C3, as stated, fails: with the config file in [/work] and the walk
    started in [/work/app], the nearest ancestor that contains the config
    filename is [/work], and [findConfig] returns
    [/work/apploc.config.json], the path of the file, not the directory. *)
Lemma findConfig_returns_file_path :
  is_nearest (Demo.machine Demo.project_files Demo.accepted) "/work/app" "/work"
  ∧ findConfig (Demo.machine Demo.project_files Demo.accepted) "/work/app"
    = Some "/work/apploc.config.json"
  ∧ findConfig (Demo.machine Demo.project_files Demo.accepted) "/work/app"
    ≠ Some "/work".
Proof.
  split; [|split; [by vm_compute | by vm_compute]].
  exists 1. split; [by vm_compute|]. split; [by vm_compute|].
  intros j Hj. replace j with 0 by lia. by vm_compute.
Qed.

End LocatorFacts.

(** ** The program *)

Module CliFacts.
Import Posix PosixFacts Transform Cli LocatorFacts.

(** Runs are computed by unfolding the monad. *)
Ltac unfold_M :=
  unfold mbind, M_bind, bind, mret, M_ret, ret, throw, lift, answer, emit,
    set_exitCode, get_spinner, createSpinner_start, try_catch,
    readFile, writeFile in *.

(** *** The writer *)

Lemma written_events p j t rest :
  rest = [] ∨ rest = [SpinnerSuccess] →
  WriteFile p j ∈ [SpinnerStart t; WriteFile p j] ++ rest
  ∧ ∀ e, e ∈ [SpinnerStart t; WriteFile p j] ++ rest →
         is_write e = true → e = WriteFile p j.
Proof.
  intros Hrest. split.
  { apply elem_of_app. left. apply elem_of_cons. right.
    by apply list_elem_of_singleton. }
  intros e He Hw.
  apply elem_of_app in He as [He | He].
  - apply elem_of_cons in He as [-> | He]; [done|].
    by apply list_elem_of_singleton in He.
  - destruct Hrest as [-> | ->]; [by apply elem_of_nil in He|].
    by apply list_elem_of_singleton in He as ->.
Qed.

(** C2. Whatever the candidate content and the state of the localization
    file, the writer issues a write of the candidate to the localization
    path if and only if the file is absent or is read with a content that
    differs from the candidate; it writes nothing else; and when the file
    holds the candidate already it only reports that nothing has changed. *)
Theorem write_iff_changed rt localizationPath newJson s :
  ∃ evs,
    trace (write_if_changed rt localizationPath newJson s).1 = trace s ++ evs
    ∧ (WriteFile localizationPath newJson ∈ evs
       ↔ existsSync rt localizationPath = false
         ∨ ∃ old, readFileSync rt localizationPath = inr old ∧ old ≠ newJson)
    ∧ (∀ e, e ∈ evs → is_write e = true
            → e = WriteFile localizationPath newJson)
    ∧ (existsSync rt localizationPath = true
       → readFileSync rt localizationPath = inr newJson
       → evs = [ConsoleLog (unchanged_message rt)]
         ∧ (write_if_changed rt localizationPath newJson s).2 = inr tt).
Proof.
  assert (∀ rest, rest = [] ∨ rest = [SpinnerSuccess] →
            ∀ tr, (existsSync rt localizationPath = false
                   ∨ ∃ old, readFileSync rt localizationPath = inr old
                            ∧ old ≠ newJson) →
            tr = ((trace s ++ [SpinnerStart ("Writing to " +:+ localizationPath
                                            +:+ "...")])
                  ++ [WriteFile localizationPath newJson]) ++ rest →
            ∃ evs, tr = trace s ++ evs
              ∧ (WriteFile localizationPath newJson ∈ evs
                 ↔ existsSync rt localizationPath = false
                   ∨ ∃ old, readFileSync rt localizationPath = inr old
                            ∧ old ≠ newJson)
              ∧ (∀ e, e ∈ evs → is_write e = true
                      → e = WriteFile localizationPath newJson)) as Hwritten.
  { intros rest Hrest tr Hdiff ->.
    destruct (written_events localizationPath newJson
                ("Writing to " +:+ localizationPath +:+ "...") rest Hrest)
      as [Hin Honly].
    eexists. split; [by rewrite <- !app_assoc|]. by split. }
  unfold write_if_changed. unfold_M.
  destruct (existsSync rt localizationPath) eqn:Hexists; simpl.
  - destruct (readFileSync rt localizationPath) as [e|old] eqn:Hread; simpl.
    + exists []. rewrite app_nil_r. repeat split; try done.
      * by intros ?%elem_of_nil.
      * intros [? | (old & ? & _)]; done.
      * by intros ? ?%elem_of_nil.
    + case_bool_decide as Hsame; simpl.
      * subst old. eexists; split; [done|]. repeat split; try done.
        -- intros [= ]%list_elem_of_singleton.
        -- intros [? | (old & [= <-] & ?)]; done.
        -- by intros ? ->%list_elem_of_singleton.
      * assert (true = false
                ∨ ∃ old0, inr old = inr old0 :> thrown + string ∧ old0 ≠ newJson)
          as Hdiff by eauto.
        destruct (writeFileSync rt localizationPath newJson); simpl;
          [ destruct (Hwritten [] (or_introl eq_refl) _ Hdiff eq_refl)
              as (evs & Htr & Hiff & Honly); rewrite app_nil_r in Htr
          | destruct (Hwritten _ (or_intror eq_refl) _ Hdiff eq_refl)
              as (evs & Htr & Hiff & Honly) ];
          exists evs; (split; [exact Htr|]); (split; [exact Hiff|]);
          (split; [exact Honly|]); congruence.
  - assert (false = false
            ∨ ∃ old, readFileSync rt localizationPath = inr old ∧ old ≠ newJson)
      as Hdiff by eauto.
    destruct (writeFileSync rt localizationPath newJson); simpl;
      [ destruct (Hwritten [] (or_introl eq_refl) _ Hdiff eq_refl)
          as (evs & Htr & Hiff & Honly); rewrite app_nil_r in Htr
      | destruct (Hwritten _ (or_intror eq_refl) _ Hdiff eq_refl)
          as (evs & Htr & Hiff & Honly) ];
      exists evs; (split; [exact Htr|]); (split; [exact Hiff|]);
      (split; [exact Honly|]); congruence.
Qed.

(** A first [update] writes the localization file; run again on the disk
    it leaves, [update] compares, reports and writes nothing. *)
Example update_twice :
  trace (run (Demo.machine Demo.project_files Demo.accepted)
             Demo.update_args).1
  = [ SpinnerStart "Fetching updates...";
      HttpGet "https://api.apploc.dev/getProjectData?id=p1&secret=s3cret";
      SpinnerSuccess;
      SpinnerStart "Creating optimized localizations...";
      SpinnerSuccess;
      SpinnerStart "Writing to /work/localization.json...";
      WriteFile "/work/localization.json"
        (Demo.stringify_object
           [ ("en", [("hello", "Hi")]); ("fr", [("hello", "Salut")]) ]);
      SpinnerSuccess ]
  ∧ trace (run (Demo.machine Demo.up_to_date_files Demo.accepted)
               Demo.update_args).1
    = [ SpinnerStart "Fetching updates...";
        HttpGet "https://api.apploc.dev/getProjectData?id=p1&secret=s3cret";
        SpinnerSuccess;
        SpinnerStart "Creating optimized localizations...";
        SpinnerSuccess;
        ConsoleLog "âœ” Nothing has changed since the last version" ].
Proof. split; vm_compute; reflexivity. Qed.

(** *** Printing *)

Lemma indent_app s1 s2 : indent (s1 +:+ s2) = indent s1 +:+ indent s2.
Proof.
  induction s1 as [|c s1 IH]; simpl; [done|].
  destruct (Ascii.eqb c "010"); simpl; by rewrite IH.
Qed.

(** A message of one line is printed as it is. *)
Lemma indent_single_line s : single_line s = true → indent s = s.
Proof.
  induction s as [|c s IH]; simpl; [done|].
  destruct (Ascii.eqb c "010"); simpl; [done|]. intros Hs. by rewrite IH.
Qed.

(** *** Dispatch *)

Lemma cli_update rt args s :
  command_of rt args = Some (Some "update") →
  cli rt args s = update rt (cwd rt) s.
Proof.
  unfold command_of, cli, parseArgumentsIntoOptions.
  destruct (arg rt (drop 2 args)) as [e|a] eqn:Harg; [done|].
  intros [= Hhead]. unfold_M. simpl. by rewrite Hhead.
Qed.

Lemma update_missing rt workingDirectory s :
  findConfig rt workingDirectory = None →
  update rt workingDirectory s
  = (State (trace s ++ [ConsoleError
              (error_prefix rt
               +:+ indent (missing_config_message rt workingDirectory))])
           (Some 1) (spinner s), inr tt).
Proof. intros Hfind. unfold update. rewrite Hfind. done. Qed.

Lemma update_found rt workingDirectory p s :
  findConfig rt workingDirectory = Some p → p ≠ "" →
  update rt workingDirectory s
  = try_catch (update_try rt p) (update_catch rt) s.
Proof.
  intros Hfind Hp. unfold update. rewrite Hfind. unfold truthy, falsy.
  by rewrite bool_decide_eq_false_2.
Qed.

(** *** [update] without a config file *)

(** C6. When neither the working directory nor any of its ancestors
    contains the config file, [apploc update] prints one line on standard
    error, the error prefix followed by [unable to find apploc.config.json
    in <cwd> or any of its parents] and, on a second line, [initialize your
    project by executing apploc init]; it sets the exit code to 1 and
    returns, having sent no request and written no file. *)
Theorem update_without_config rt args :
  command_of rt args = Some (Some "update") →
  (∀ k, contains_config rt (ancestor k (cwd rt)) = false) →
  run rt args
  = (State [ConsoleError
              (error_prefix rt
               +:+ "unable to find apploc.config.json in "
               +:+ indent (bold rt (cwd rt))
               +:+ " or any of its parents
       initialize your project by executing "
               +:+ indent (bold rt "apploc init"))]
           (Some 1) false, inr tt)
  ∧ exit_code (run rt args).1 = 1
  ∧ Forall (λ e, is_request e = false ∧ is_write e = false)
           (trace (run rt args).1).
Proof.
  intros Hcmd Hnone. apply findConfig_none in Hnone.
  assert (run rt args
          = (State [ConsoleError
                      (error_prefix rt
                       +:+ indent (missing_config_message rt (cwd rt)))]
                   (Some 1) false, inr tt)) as Hrun.
  { unfold run. by rewrite (cli_update _ _ _ Hcmd), (update_missing _ _ _ Hnone). }
  rewrite Hrun. split; [|split; [done | by repeat constructor]].
  unfold missing_config_message. by rewrite !indent_app.
Qed.

(** The project is elsewhere: an empty disk. *)
Lemma update_without_config_witness :
  run (Demo.machine [] Demo.accepted) Demo.update_args
  = (State [ConsoleError
              "error: unable to find apploc.config.json in /work/app or any of its parents
       initialize your project by executing apploc init"]
           (Some 1) false, inr tt)
  ∧ exit_code (run (Demo.machine [] Demo.accepted) Demo.update_args).1 = 1
  ∧ Forall (λ e, is_request e = false ∧ is_write e = false)
           (trace (run (Demo.machine [] Demo.accepted) Demo.update_args).1).
Proof.
  apply (update_without_config (Demo.machine [] Demo.accepted)
           Demo.update_args).
  - reflexivity.
  - intros k. reflexivity.
Defined.

(** *** [update] with a config file *)

(** The request fails with the server's message when the envelope is not
    [ok]. *)
Lemma fetch_rejected rt c response s :
  axios_get rt (request_url rt c) = inr response →
  ok response = false →
  fetch rt c s
  = (State (trace s ++ [HttpGet (request_url rt c)]) (exitCode s) (spinner s),
     inl (match message response with
          | Some m => ThrownString m
          | None => ThrownUndefined
          end)).
Proof.
  intros Hget Hok. unfold fetch. unfold_M. simpl. rewrite Hget. simpl.
  by rewrite Hok.
Qed.

(** The envelope that carries a message. When the config is read and the
    server answers with an envelope whose [ok] is false and whose message
    is [m], the request fails with [m] as the thrown value; [apploc update]
    stops its spinner, prints the error prefix followed by [m] on standard
    error (the lines after the first indented, so a message of one line is
    printed as it is), sets the exit code to 1 and returns. *)
Lemma update_rejected_envelope rt args p text c response m :
  command_of rt args = Some (Some "update") →
  findConfig rt (cwd rt) = Some p → p ≠ "" →
  readFileSync rt p = inr text →
  parse_config rt text = inr c →
  axios_get rt (request_url rt c) = inr response →
  ok response = false →
  message response = Some m →
  (∀ s, (fetch rt c s).2 = inl (ThrownString m))
  ∧ run rt args
    = (State [ SpinnerStart "Fetching updates...";
               HttpGet (request_url rt c);
               SpinnerError;
               ConsoleError (error_prefix rt +:+ indent m) ]
             (Some 1) true, inr tt)
  ∧ exit_code (run rt args).1 = 1
  ∧ (single_line m = true →
     ConsoleError (error_prefix rt +:+ m) ∈ trace (run rt args).1).
Proof.
  intros Hcmd Hfind Hp Hread Hparse Hget Hok Hmsg.
  assert (∀ s, fetch rt c s
               = (State (trace s ++ [HttpGet (request_url rt c)])
                        (exitCode s) (spinner s), inl (ThrownString m)))
    as Hfetch.
  { intros s. by rewrite (fetch_rejected _ _ _ _ Hget Hok), Hmsg. }
  split; [intros s; by rewrite Hfetch|].
  assert (run rt args
          = (State [ SpinnerStart "Fetching updates...";
                     HttpGet (request_url rt c);
                     SpinnerError;
                     ConsoleError (error_prefix rt +:+ indent m) ]
                   (Some 1) true, inr tt)) as Hrun.
  { unfold run.
    rewrite (cli_update _ _ _ Hcmd), (update_found _ _ _ _ Hfind Hp).
    unfold update_try, update_catch, logError. unfold_M. simpl.
    rewrite Hread. simpl. rewrite Hparse. simpl. by rewrite Hfetch. }
  rewrite Hrun. split; [done|]. split; [done|].
  intros Hline. rewrite <- (indent_single_line m Hline) at 1. simpl.
  do 3 (apply elem_of_cons; right). by apply elem_of_cons; left.
Qed.

(** The envelope [{ok: false, message: "bad secret"}]: [update] prints
    [error: bad secret] and exits with 1. *)
Lemma update_rejected_envelope_witness :
  (∀ s, (fetch (Demo.machine Demo.project_files Demo.bad_secret)
               Demo.stored_config s).2 = inl (ThrownString "bad secret"))
  ∧ run (Demo.machine Demo.project_files Demo.bad_secret) Demo.update_args
    = (State [ SpinnerStart "Fetching updates...";
               HttpGet "https://api.apploc.dev/getProjectData?id=p1&secret=s3cret";
               SpinnerError;
               ConsoleError "error: bad secret" ]
             (Some 1) true, inr tt)
  ∧ exit_code (run (Demo.machine Demo.project_files Demo.bad_secret)
                   Demo.update_args).1 = 1
  ∧ (single_line "bad secret" = true →
     ConsoleError "error: bad secret"
     ∈ trace (run (Demo.machine Demo.project_files Demo.bad_secret)
                  Demo.update_args).1).
Proof.
  apply (update_rejected_envelope
           (Demo.machine Demo.project_files Demo.bad_secret)
           Demo.update_args "/work/apploc.config.json" Demo.config_text
           Demo.stored_config (Envelope false None (Some "bad secret"))
           "bad secret"); try reflexivity.
  discriminate.
Defined.

(** *** No write after a failure *)

(** The handler prints, and never writes a file. *)
Lemma update_catch_events rt error s :
  ∃ evs, trace (update_catch rt error s).1 = trace s ++ evs
         ∧ Forall (λ ev, is_write ev = false) evs.
Proof.
  unfold update_catch, logError. unfold_M. simpl.
  destruct (spinner s), error; simpl; rewrite <- ?app_assoc;
    eexists; (split; [try done; symmetry; apply app_nil_r|]);
    by repeat constructor.
Qed.

(** Each way of failing leaves the body of [try] by a throw, before any
    write. *)
Lemma update_try_fails rt configPath s :
  fails_before_write rt configPath →
  ∃ evs error,
    (update_try rt configPath s).2 = inl error
    ∧ trace (update_try rt configPath s).1 = trace s ++ evs
    ∧ Forall (λ ev, is_write ev = false) evs.
Proof.
  unfold update_try, fetch, build_localizations. unfold_M. simpl.
  intros Hfail. destruct Hfail;
    repeat (match goal with H : _ = _ |- _ => rewrite H end; simpl);
    try (destruct (ok response); simpl);
    repeat (match goal with H : _ = _ |- _ => rewrite H end; simpl);
    rewrite <- ?app_assoc;
    first [ exists []; eexists; rewrite app_nil_r; by repeat split
          | do 2 eexists; repeat split; by repeat constructor ].
Qed.

(** C10. When the [update] path fails before the final write (the config
    file unreadable or unparsable, the request failed, the envelope not
    [ok], the remote data missing or unparsable, or the loops thrown out
    of), the run holds no write at all: the localization file is neither
    created nor modified. *)
Theorem update_failure_writes_nothing rt args p :
  command_of rt args = Some (Some "update") →
  findConfig rt (cwd rt) = Some p →
  fails_before_write rt p →
  Forall (λ ev, is_write ev = false) (trace (run rt args).1).
Proof.
  intros Hcmd Hfind Hfail. unfold run. rewrite (cli_update _ _ _ Hcmd).
  destruct (decide (p = "")) as [->|Hp].
  { unfold update. rewrite Hfind. by repeat constructor. }
  rewrite (update_found _ _ _ _ Hfind Hp).
  destruct (update_try_fails rt p initial_state Hfail)
    as (evs & error & Hthrow & Htrace & Hevs).
  unfold try_catch.
  destruct (update_try rt p initial_state) as [s' [e|[]]]; [|done].
  simpl in Htrace.
  destruct (update_catch_events rt e s') as (evs' & -> & Hevs').
  rewrite Htrace. simpl. apply Forall_app. by split.
Qed.

(** The server rejects the secret: nothing is written. *)
Lemma update_failure_writes_nothing_witness :
  Forall (λ ev, is_write ev = false)
    (trace (run (Demo.machine Demo.project_files Demo.bad_secret)
                Demo.update_args).1).
Proof.
  apply (update_failure_writes_nothing
           (Demo.machine Demo.project_files Demo.bad_secret)
           Demo.update_args "/work/apploc.config.json").
  - reflexivity.
  - reflexivity.
  - apply (envelope_not_ok _ _ Demo.config_text Demo.stored_config
             (Envelope false None (Some "bad secret"))); reflexivity.
Defined.

(** *** Exit codes *)

Lemma cli_arg_throws rt args e :
  arg rt (drop 2 args) = inl e → run rt args = (initial_state, inl e).
Proof.
  intros Harg. unfold run, cli, parseArgumentsIntoOptions. unfold_M.
  by rewrite Harg.
Qed.

(** No command, or an empty one: the usage, and exit code 1. *)
Lemma cli_no_command rt args command :
  command_of rt args = Some command → falsy command = true →
  run rt args = (State [ConsoleLog usage] (Some 1) false, inr tt).
Proof.
  unfold command_of, run, cli, parseArgumentsIntoOptions, printUsage.
  destruct (arg rt (drop 2 args)) as [e|a] eqn:Harg; [done|].
  intros [= Hhead] Hfalsy. unfold_M. simpl. rewrite Hhead, Hfalsy. done.
Qed.

(** [help]: the usage, and the exit code left alone. *)
Lemma cli_help rt args :
  command_of rt args = Some (Some "help") →
  run rt args = (State [ConsoleLog usage] None false, inr tt).
Proof.
  unfold command_of, run, cli, parseArgumentsIntoOptions, printUsage.
  destruct (arg rt (drop 2 args)) as [e|a] eqn:Harg; [done|].
  intros [= Hhead]. unfold_M. simpl. by rewrite Hhead.
Qed.

(** Any other word: an error line, and exit code 1. *)
Lemma cli_unknown rt args command :
  command_of rt args = Some (Some command) →
  command ∉ [""; "help"; "init"; "update"] →
  run rt args
  = (State [ConsoleError (error_prefix rt
                          +:+ indent ("unknown command: " +:+ command))]
           (Some 1) false, inr tt).
Proof.
  unfold command_of, run, cli, parseArgumentsIntoOptions, logError.
  destruct (arg rt (drop 2 args)) as [e|a] eqn:Harg; [done|].
  intros [= Hhead] Hother. unfold_M. simpl. rewrite Hhead.
  assert (command ≠ "" ∧ command ≠ "help" ∧ command ≠ "init"
          ∧ command ≠ "update") as (H0 & H1 & H2 & H3).
  { repeat split; intros ->; apply Hother; repeat constructor. }
  unfold falsy.
  rewrite (bool_decide_eq_false_2 (command = "")) by done.
  rewrite (bool_decide_eq_false_2 (Some command = Some "help")) by congruence.
  rewrite (bool_decide_eq_false_2 (Some command = Some "init")) by congruence.
  rewrite (bool_decide_eq_false_2 (Some command = Some "update"))
    by congruence.
  reflexivity.
Qed.

Lemma keeps_ret {A} (a : A) : keeps_exitCode (mret a).
Proof. done. Qed.

Lemma keeps_throw {A} e : keeps_exitCode (throw (A := A) e).
Proof. done. Qed.

Lemma keeps_lift {A} (r : thrown + A) : keeps_exitCode (lift r).
Proof. by destruct r. Qed.

Lemma keeps_emit e : keeps_exitCode (emit e).
Proof. done. Qed.

Lemma keeps_createSpinner_start text :
  keeps_exitCode (createSpinner_start text).
Proof. done. Qed.

Lemma keeps_bind {A B} (m : M A) (f : A → M B) :
  keeps_exitCode m → (∀ a, keeps_exitCode (f a)) → keeps_exitCode (m ≫= f).
Proof.
  intros Hm Hf s. unfold mbind, M_bind, bind. specialize (Hm s).
  destruct (m s) as [s' [e|a]]; simpl in *; [done|]. by rewrite Hf.
Qed.

Ltac keeps :=
  repeat first
    [ apply keeps_bind; [|intros ?]
    | apply keeps_ret | apply keeps_throw | apply keeps_lift
    | apply keeps_emit | apply keeps_createSpinner_start
    | match goal with
      | |- keeps_exitCode (if ?b then _ else _) => destruct b
      | |- keeps_exitCode (match ?x with _ => _ end) => destruct x
      end ].

(** [init] never sets the exit code. *)
Lemma init_keeps_exitCode rt o workingDirectory configPath :
  keeps_exitCode (init rt o workingDirectory configPath).
Proof.
  unfold init, promptForMissingOptions, answer, writeFile. keeps.
Qed.

Lemma cli_init_exit_code rt args :
  command_of rt args = Some (Some "init") →
  exitCode (run rt args).1 = None.
Proof.
  unfold command_of, run, cli, parseArgumentsIntoOptions.
  destruct (arg rt (drop 2 args)) as [e|a] eqn:Harg; [done|].
  intros [= Hhead]. unfold_M. simpl. rewrite Hhead. simpl.
  apply init_keeps_exitCode.
Qed.

(** The body of [try] never touches the exit code. *)
Lemma update_try_exit_code rt configPath :
  keeps_exitCode (update_try rt configPath).
Proof.
  unfold update_try, fetch, build_localizations, write_if_changed,
    readFile, writeFile.
  keeps.
Qed.

(** The [update] path with a config file, by how the body of [try] ends:
    normally, and the exit code is left alone; with a thrown value that has
    a text, and the handler prints it after the prefix and sets the exit
    code to 1; with [undefined] thrown, and the handler itself throws. *)
Lemma update_exit_code rt args p :
  command_of rt args = Some (Some "update") →
  findConfig rt (cwd rt) = Some p → p ≠ "" →
  match (update_try rt p initial_state).2 with
  | inr _ =>
      (run rt args).2 = inr tt ∧ exitCode (run rt args).1 = None
  | inl ThrownUndefined =>
      (run rt args).2 = inl (ThrownError (engine_error rt ToStringOfUndefined))
      ∧ exitCode (run rt args).1 = None
  | inl (ThrownError text) | inl (ThrownString text) =>
      (run rt args).2 = inr tt ∧ exitCode (run rt args).1 = Some 1
      ∧ last (trace (run rt args).1)
        = Some (ConsoleError (error_prefix rt +:+ indent text))
  end.
Proof.
  intros Hcmd Hfind Hp. unfold run.
  rewrite (cli_update _ _ _ Hcmd), (update_found _ _ _ _ Hfind Hp).
  pose proof (update_try_exit_code rt p initial_state) as Hexit.
  unfold try_catch.
  destruct (update_try rt p initial_state) as [s' [e|[]]]; simpl in *;
    [|done].
  unfold update_catch, logError. unfold_M. simpl.
  destruct (spinner s'), e; simpl; rewrite ?last_snoc; done.
Qed.

(** The handler rejects a run whose envelope has no message. *)
Lemma update_rejected_without_message rt args p text c response :
  command_of rt args = Some (Some "update") →
  findConfig rt (cwd rt) = Some p → p ≠ "" →
  readFileSync rt p = inr text →
  parse_config rt text = inr c →
  axios_get rt (request_url rt c) = inr response →
  ok response = false →
  message response = None →
  run rt args
  = (State [ SpinnerStart "Fetching updates...";
             HttpGet (request_url rt c);
             SpinnerError ]
           None true,
     inl (ThrownError (engine_error rt ToStringOfUndefined))).
Proof.
  intros Hcmd Hfind Hp Hread Hparse Hget Hok Hmsg. unfold run.
  rewrite (cli_update _ _ _ Hcmd), (update_found _ _ _ _ Hfind Hp).
  unfold update_try, update_catch, logError. unfold_M. simpl.
  rewrite Hread. simpl. rewrite Hparse. simpl.
  by rewrite (fetch_rejected _ _ _ _ Hget Hok), Hmsg.
Qed.

(** C4. An [update] run whose config is read and whose server answers with
    an envelope whose [ok] is false and which has no [message] (the field
    is optional): the request fails, and the value thrown is [undefined],
    no message; the handler stops the spinner and fails in [logError] at
    [message.toString()], so that the run is a rejected promise carrying
    that [TypeError]: no text reaches [console.error], and
    [process.exitCode] is never set to 1. With a message in the envelope
    the run is the claimed one ([update_rejected_envelope]). *)
Theorem update_rejected_unreported rt args p text c response :
  command_of rt args = Some (Some "update") →
  findConfig rt (cwd rt) = Some p → p ≠ "" →
  readFileSync rt p = inr text →
  parse_config rt text = inr c →
  axios_get rt (request_url rt c) = inr response →
  ok response = false →
  message response = None →
  (∀ s, (fetch rt c s).2 = inl ThrownUndefined)
  ∧ (run rt args).2 = inl (ThrownError (engine_error rt ToStringOfUndefined))
  ∧ exitCode (run rt args).1 = None
  ∧ ∀ t, ConsoleError t ∉ trace (run rt args).1.
Proof.
  intros Hcmd Hfind Hp Hread Hparse Hget Hok Hmsg.
  split.
  { intros s. by rewrite (fetch_rejected _ _ _ _ Hget Hok), Hmsg. }
  rewrite (update_rejected_without_message _ _ _ _ _ _
             Hcmd Hfind Hp Hread Hparse Hget Hok Hmsg). simpl.
  split; [done|]. split; [done|]. intros t Hin.
  repeat (apply elem_of_cons in Hin as [Hin | Hin]; [discriminate|]).
  by apply elem_of_nil in Hin.
Qed.

(** The envelope [{ok: false}] on the demo machine. *)
Lemma update_rejected_unreported_witness :
  (∀ s, (fetch (Demo.machine Demo.project_files Demo.no_message)
               Demo.stored_config s).2 = inl ThrownUndefined)
  ∧ (run (Demo.machine Demo.project_files Demo.no_message)
         Demo.update_args).2 = inl (ThrownError "TypeError")
  ∧ exitCode (run (Demo.machine Demo.project_files Demo.no_message)
                  Demo.update_args).1 = None
  ∧ ∀ t, ConsoleError t
         ∉ trace (run (Demo.machine Demo.project_files Demo.no_message)
                      Demo.update_args).1.
Proof.
  apply (update_rejected_unreported
           (Demo.machine Demo.project_files Demo.no_message)
           Demo.update_args "/work/apploc.config.json" Demo.config_text
           Demo.stored_config (Envelope false None None)); try reflexivity.
  discriminate.
Defined.

(** C5, at an [update] run whose config is read and whose server answers
    [{ok: false}], without a message. [throw response.message] throws
    [undefined]; the handler stops the spinner and calls [logError], whose
    [message.toString()] throws in its turn: the promise of [cli] is
    rejected with that [TypeError], nothing has been printed with the error
    prefix, and [process.exitCode] has not been set. *)
Theorem update_error_escapes_handler :
  run (Demo.machine Demo.project_files Demo.no_message) Demo.update_args
  = (State [ SpinnerStart "Fetching updates...";
             HttpGet "https://api.apploc.dev/getProjectData?id=p1&secret=s3cret";
             SpinnerError ]
           None true,
     inl (ThrownError "TypeError"))
  ∧ exitCode (run (Demo.machine Demo.project_files Demo.no_message)
                  Demo.update_args).1 = None.
Proof. split; vm_compute; reflexivity. Qed.

End CliFacts.

(** * More of the program *)

(** ** The loops on every payload *)

Module TransformMore.
Import Js Transform JsFacts TransformFacts Coverage.

Lemma transform_from_writes h keys :
  transform_from h keys = forEach visit_write (writes keys) h.
Proof.
  unfold transform_from, writes. revert h.
  induction keys as [|k keys IH]; intros h; simpl; [done|].
  rewrite forEach_app.
  assert (forEach (visit (key k)) (localizations k) h
          = forEach visit_write
              (map (λ l, (code l, key k, value l)) (localizations k)) h) as ->.
  { generalize (localizations k). intros ls. revert h.
    induction ls as [|[c v] ls IHl]; intros h; simpl; [done|].
    unfold visit_write at 1. simpl.
    destruct (visit (key k) h (Localization c v)); [apply IHl | done]. }
  destruct (forEach visit_write _ h); [apply IH | done].
Qed.

Lemma last_written_snoc c k ws c' k' v :
  last_written c k (ws ++ [(c', k', v)])
  = if decide (c' = c ∧ k' = k) then Some v else last_written c k ws.
Proof.
  induction ws as [|[[c0 k0] v0] ws IH]; simpl.
  - by destruct (decide _).
  - rewrite IH. destruct (decide (c' = c ∧ k' = k)); [done|].
    by destruct (last_written c k ws).
Qed.

Lemma get_cases h c :
  match get h c with
  | RInner o => obj_get c (own h) = Some o
  | RUndefined => obj_get c (own h) = None ∧ inherited_name c = false
  | _ => obj_get c (own h) = None
  end.
Proof.
  unfold get, inherited_name.
  destruct (obj_get c (own h)); [done|].
  destruct (decide (c = "__proto__")); [done|].
  destruct (object_prototype h !! c); [done|].
  destruct (bool_decide (c ∈ object_prototype_functions)); [done|].
  by rewrite bool_decide_eq_false_2.
Qed.

Lemma get_created h c : get (create_inner h c) c = RInner [].
Proof. unfold get, create_inner. simpl. by rewrite obj_get_set_eq. Qed.

Lemma output_map_created h c :
  output_map (create_inner h c) = <[c := ∅]> (output_map h).
Proof. unfold create_inner. by rewrite output_map_set. Qed.

(** One turn of the inner loop does one of three things to the output as a
    value: it inserts as the specification does, under a code that is not
    inherited and a key that is not [__proto__]; it leaves the output as it
    is; or, on a new code with the key [__proto__], it adds an empty inner
    object. In the last two cases the pair had no entry. *)
Lemma visit_outcome k h l h' :
  (∀ c, inherited_name c = true → output_map h !! c = None) →
  visit k h l = Normal h' →
  (k ≠ "__proto__" ∧ inherited_name (code l) = false
   ∧ output_map h' = spec_insert (output_map h) (code l) k (value l))
  ∨ (output_map h' = output_map h
     ∧ (k = "__proto__" ∨ output_map h !! code l = None))
  ∨ (k = "__proto__" ∧ inherited_name (code l) = false
     ∧ output_map h !! code l = None
     ∧ output_map h' = <[code l := ∅]> (output_map h)).
Proof.
  intros Hinh. unfold visit.
  pose proof (get_cases h (code l)) as Hcases.
  destruct (get h (code l)) as [o| |fn|s|] eqn:Hg; simpl.
  - unfold put. rewrite Hg.
    destruct (decide (k = "__proto__")) as [Hk|Hk]; intros [= Hh]; subst h'.
    + right. left. by split; [|left].
    + left. split; [done|]. split.
      { destruct (inherited_name (code l)) eqn:Hc; [|done].
        apply Hinh in Hc. by rewrite output_map_lookup, Hcases in Hc. }
      rewrite output_map_set, obj_map_set. unfold spec_insert.
      by rewrite output_map_lookup, Hcases.
  - unfold put. rewrite Hg.
    assert (output_map h !! code l = None) as Hnone
      by (by rewrite output_map_lookup, Hcases).
    destruct (decide (k = "__proto__")); intros [= Hh]; subst h';
      right; left; by split; [|right].
  - unfold put. rewrite Hg.
    assert (output_map h !! code l = None) as Hnone
      by (by rewrite output_map_lookup, Hcases).
    destruct (decide (k = "__proto__")).
    { intros [= Hh]; subst h'. right; left. by split; [|right]. }
    destruct (function_rejects fn k); [done|].
    intros [= Hh]; subst h'. right; left. by split; [|right].
  - unfold put. rewrite Hg.
    assert (output_map h !! code l = None) as Hnone
      by (by rewrite output_map_lookup, Hcases).
    destruct (decide (k = "__proto__")); [|done].
    intros [= Hh]; subst h'. right; left. by split; [|right].
  - destruct Hcases as [Hget Hc].
    assert (output_map h !! code l = None) as Hnone
      by (by rewrite output_map_lookup, Hget).
    unfold put. rewrite get_created.
    destruct (decide (k = "__proto__")) as [Hk|Hk]; intros [= Hh]; subst h'.
    + right; right. by rewrite output_map_created.
    + left. split; [done|]. split; [done|].
      rewrite (output_map_set (create_inner h (code l))).
      rewrite output_map_created, insert_insert_eq. unfold spec_insert.
      by rewrite Hnone.
Qed.

Lemma entry_insert_empty (out : gmap string (gmap string string)) c c' k' :
  out !! c = None → entry (<[c := ∅]> out) c' k' = entry out c' k'.
Proof.
  intros Hnone. unfold entry.
  destruct (decide (c = c')) as [->|Hne].
  - by rewrite lookup_insert_eq, Hnone.
  - by rewrite lookup_insert_ne.
Qed.

Lemma entry_none_of_lookup (out : gmap string (gmap string string)) c k :
  out !! c = None → entry out c k = None.
Proof. intros H. unfold entry. by rewrite H. Qed.

(** The invariant passes through one turn. *)
Lemma visit_write_sound ws h w h' :
  sound_for ws h → visit_write h w = Normal h' → sound_for (ws ++ [w]) h'.
Proof.
  destruct w as [[c k] v]. unfold visit_write. simpl.
  intros [Hinh Hent] Hvisit. unfold sound_for.
  destruct (visit_outcome _ _ _ _ Hinh Hvisit)
    as [(Hk & Hc & Hout) | [(Hout & Hnone) | (Hk & Hc & Hnone & Hout)]];
    simpl in *; rewrite Hout; clear Hout.
  - split.
    + intros c0 Hc0. unfold spec_insert.
      rewrite lookup_insert_ne by congruence. by apply Hinh.
    + intros c0 k0 v0. rewrite entry_spec_insert, last_written_snoc.
      destruct (decide (c = c0 ∧ k = k0)) as [[-> ->]|Hne].
      * intros [= <-]. done.
      * apply Hent.
  - split; [done|].
    intros c0 k0 v0 Hentry. destruct (Hent _ _ _ Hentry) as [Hk0 Hlast].
    split; [done|]. rewrite last_written_snoc.
    destruct (decide (c = c0 ∧ k = k0)) as [[-> ->]|Hne]; [|done].
    destruct Hnone as [-> | Hnone]; [done|].
    by rewrite (entry_none_of_lookup _ _ _ Hnone) in Hentry.
  - split.
    + intros c0 Hc0. rewrite lookup_insert_ne by congruence. by apply Hinh.
    + intros c0 k0 v0. rewrite entry_insert_empty by done.
      intros Hentry. destruct (Hent _ _ _ Hentry) as [Hk0 Hlast].
      split; [done|]. rewrite last_written_snoc.
      destruct (decide (c = c0 ∧ k = k0)) as [[-> ->]|Hne]; [|done].
      by rewrite (entry_none_of_lookup _ _ _ Hnone) in Hentry.
Qed.

Lemma forEach_sound ws' : ∀ ws h h',
  sound_for ws h → forEach visit_write ws' h = Normal h' →
  sound_for (ws ++ ws') h'.
Proof.
  induction ws' as [|w ws' IH]; intros ws h h' Hsound; simpl.
  - intros [= <-]. by rewrite app_nil_r.
  - destruct (visit_write h w) as [h1|] eqn:Hw; [|done].
    intros Hrest.
    replace (ws ++ w :: ws') with ((ws ++ [w]) ++ ws')
      by (by rewrite <- app_assoc).
    eapply IH; [|done]. by eapply visit_write_sound.
Qed.

Lemma sound_for_initial : sound_for [] initial_heap.
Proof.
  split.
  - intros c _. by rewrite output_map_initial.
  - intros c k v. unfold entry. by rewrite output_map_initial.
Qed.

(** X2. Whatever the payload, names inherited from [Object.prototype]
    included: when the loops end normally, every entry of the output object
    holds the last value that the payload writes to its (code, key) pair,
    and its key is not [__proto__]. *)
Theorem transform_entries_sound keys h c k v :
  transform keys = Normal h →
  entry (output_map h) c k = Some v →
  last_written c k (writes keys) = Some v ∧ k ≠ "__proto__".
Proof.
  unfold transform. rewrite transform_from_writes. intros Hrun Hentry.
  destruct (forEach_sound _ [] _ _ sound_for_initial Hrun) as [_ Hent].
  by destruct (Hent _ _ _ Hentry).
Qed.

(** X3. Whatever the payload, the output object never holds a locale under
    a name that objects inherit ([__proto__], [constructor], [toString],
    ...): such codes are dropped from the file that is written. *)
Theorem transform_no_inherited_locale keys h c :
  transform keys = Normal h →
  inherited_name c = true →
  output_map h !! c = None.
Proof.
  unfold transform. rewrite transform_from_writes. intros Hrun Hc.
  destruct (forEach_sound _ [] _ _ sound_for_initial Hrun) as [Hinh _].
  by apply Hinh.
Qed.

(** [en]/[hello] is written twice on [Bench.mixed_keys]; the entry is the
    second value. *)
Lemma transform_entries_sound_witness :
  last_written "en" "hello" (writes Bench.mixed_keys) = Some "B"
  ∧ "hello" ≠ "__proto__".
Proof.
  apply (transform_entries_sound Bench.mixed_keys
           (Heap [("en", [("hello", "B")])] ∅) "en" "hello" "B");
    vm_compute; reflexivity.
Defined.

(** The code [constructor] of [Bench.mixed_keys] is not in the output. *)
Lemma transform_no_inherited_locale_witness :
  output_map (Heap [("en", [("hello", "B")])] ∅) !! "constructor" = None.
Proof.
  apply (transform_no_inherited_locale Bench.mixed_keys
           (Heap [("en", [("hello", "B")])] ∅) "constructor");
    vm_compute; reflexivity.
Defined.

(** X1. On a payload none of whose codes is a name that objects inherit and
    none of whose keys is [__proto__], the loops never throw and never touch
    [Object.prototype]; the output object is, as a value, the map of the
    specification, and each of its entries, present or absent, is the last
    value that the payload writes to the pair, duplicates included. *)
Theorem transform_plain_names keys :
  plain_names keys →
  ∃ h, transform keys = Normal h
       ∧ object_prototype h = ∅
       ∧ output_map h = spec_transform keys
       ∧ ∀ c k, entry (output_map h) c k = last_written c k (writes keys).
Proof.
  intros Hplain.
  destruct (transform_from_plain keys Hplain initial_heap eq_refl)
    as (h & Hrun & Hproto & Hout).
  rewrite output_map_initial in Hout. fold (spec_transform keys) in Hout.
  exists h. repeat split; try done.
  intros c k. rewrite Hout. apply spec_transform_last_written.
Qed.

Lemma transform_plain_names_witness :
  ∃ h, transform duplicate_keys = Normal h
       ∧ object_prototype h = ∅
       ∧ output_map h = spec_transform duplicate_keys
       ∧ ∀ c k, entry (output_map h) c k
                = last_written c k (writes duplicate_keys).
Proof.
  apply (transform_plain_names duplicate_keys). repeat constructor; done.
Defined.

(** X4. Two payloads of plain names that write the same triples in
    different orders, none of them twice to one (code, key) pair, give the
    same output as a value: without duplicates the order of the records and
    of their localizations is immaterial. *)
Theorem plain_payload_order_irrelevant keys1 keys2 :
  plain_names keys1 → plain_names keys2 →
  writes keys1 ≡ₚ writes keys2 →
  NoDup (write_pairs (writes keys1)) →
  same_outcome (transform keys1) (transform keys2).
Proof.
  intros Hplain1 Hplain2 Hperm Hdup.
  destruct (transform_from_plain keys1 Hplain1 initial_heap eq_refl)
    as (h1 & Hrun1 & Hproto1 & Hout1).
  destruct (transform_from_plain keys2 Hplain2 initial_heap eq_refl)
    as (h2 & Hrun2 & Hproto2 & Hout2).
  unfold transform. rewrite Hrun1, Hrun2. simpl.
  split; [|by rewrite Hproto1, Hproto2].
  rewrite Hout1, Hout2, !spec_transform_from_writes.
  by apply foldl_spec_insert_permutation.
Qed.

Lemma plain_payload_order_irrelevant_witness :
  same_outcome (transform example_keys) (transform Bench.example_keys_reversed).
Proof.
  apply (plain_payload_order_irrelevant example_keys
           Bench.example_keys_reversed).
  - repeat constructor; done.
  - repeat constructor; done.
  - apply perm_swap.
  - simpl. apply NoDup_cons. split.
    + intros Hin. apply list_elem_of_singleton in Hin. discriminate.
    + apply NoDup_singleton.
Defined.

End TransformMore.

(** ** The walk and the root *)

Module LocatorMore.
Import Posix PosixFacts Cli LocatorFacts.

Lemma dirname_moves path :
  path ≠ "." → path ≠ "/" → dirname path ≠ path.
Proof.
  intros Hdot Hroot Hfix. unfold dirname in Hfix.
  destruct (String.length path =? 0) eqn:Hlen; [congruence|].
  apply Nat.eqb_neq in Hlen.
  destruct (dirname_scan path (String.length path - 1) true) as [e|] eqn:Hscan.
  - apply dirname_scan_bound in Hscan as (He1 & He2 & He3).
    specialize (He3 eq_refl).
    destruct (is_slash_at path 0 && (e =? 1)) eqn:Htwo.
    + apply andb_true_iff in Htwo as [_ ->%Nat.eqb_eq].
      rewrite <- Hfix in He3. simpl in He3. lia.
    + apply (f_equal String.length) in Hfix.
      rewrite length_substring_0 in Hfix; lia.
  - destruct (is_slash_at path 0); congruence.
Qed.

(** The exit test of the walk, [currentDir === parentDir], holds at
    [/] and at [.] and at no other path. *)
Lemma dirname_fixed_points path :
  dirname path = path ↔ path = "." ∨ path = "/".
Proof.
  split; [|apply dirname_fixed].
  intros Hfix.
  destruct (decide (path = ".")) as [?|Hdot]; [by left|].
  destruct (decide (path = "/")) as [?|Hroot]; [by right|].
  by destruct (dirname_moves path Hdot Hroot).
Qed.

Lemma is_slash_at_substring path e :
  1 ≤ e → is_slash_at (String.substring 0 e path) 0 = is_slash_at path 0.
Proof.
  unfold is_slash_at. destruct e as [|e]; [lia|]. intros _.
  by destruct path.
Qed.

(** The parent of an absolute path is absolute. *)
Lemma dirname_absolute path :
  is_slash_at path 0 = true → is_slash_at (dirname path) 0 = true.
Proof.
  intros Habs. unfold dirname.
  destruct (String.length path =? 0) eqn:Hlen.
  { apply Nat.eqb_eq in Hlen. by destruct path. }
  rewrite Habs. simpl.
  destruct (dirname_scan path (String.length path - 1) true) as [e|] eqn:Hscan;
    [|done].
  destruct (e =? 1); [done|].
  apply dirname_scan_bound in Hscan as (He1 & _).
  by rewrite is_slash_at_substring.
Qed.

Lemma ancestor_absolute startDir k :
  is_slash_at startDir 0 = true → is_slash_at (ancestor k startDir) 0 = true.
Proof.
  intros Habs. induction k as [|k IH]; [done|].
  rewrite ancestor_succ. by apply dirname_absolute.
Qed.

(** Every walk reaches a fixed point, within depth-many steps. *)
Lemma ancestor_reaches_fixed : ∀ m dir,
  depth dir ≤ m → ∃ k, k ≤ m ∧ dirname (ancestor k dir) = ancestor k dir.
Proof.
  induction m as [|m IH]; intros dir Hdepth;
    destruct (decide (dirname dir = dir)) as [Hfix|Hmove].
  1,3: exists 0; split; [lia | done].
  - apply dirname_depth in Hmove. lia.
  - pose proof (dirname_depth _ Hmove).
    destruct (IH (dirname dir)) as (k & Hk & Hfix); [lia|].
    exists (S k). split; [lia|]. by rewrite !ancestor_shift.
Qed.

(** From an absolute directory the walk climbs through absolute
    directories only and arrives at [/], after at most as many steps as the
    path has characters, plus one. *)
Lemma walk_reaches_root startDir :
  is_slash_at startDir 0 = true →
  (∀ k, is_slash_at (ancestor k startDir) 0 = true)
  ∧ ∃ k, k ≤ S (String.length startDir) ∧ ancestor k startDir = "/".
Proof.
  intros Habs. split; [intros k; by apply ancestor_absolute|].
  destruct (ancestor_reaches_fixed _ startDir (depth_bound startDir))
    as (k & Hk & Hfix).
  exists k. split; [done|].
  destruct (decide (ancestor k startDir = ".")) as [Hdot|Hdot].
  { pose proof (ancestor_absolute startDir k Habs) as Hk'.
    by rewrite Hdot in Hk'. }
  destruct (decide (ancestor k startDir = "/")) as [?|Hroot]; [done|].
  by destruct (dirname_moves _ Hdot Hroot).
Qed.

(** X5. A config file in the root directory is found from every absolute
    starting directory: [findConfig] does not return [null]. *)
Theorem findConfig_finds_root_config rt startDir :
  is_slash_at startDir 0 = true →
  contains_config rt "/" = true →
  ∃ p, findConfig rt startDir = Some p.
Proof.
  intros Habs Hroot.
  destruct (findConfig rt startDir) as [p|] eqn:Hfind; [by exists p|].
  destruct (walk_reaches_root startDir Habs) as [_ (k & _ & Hk)].
  pose proof (proj1 (findConfig_none rt startDir) Hfind k) as Hnone.
  rewrite Hk in Hnone. congruence.
Qed.

(** The shell in [/work/app], the config file in the root directory. *)
Lemma findConfig_finds_root_config_witness :
  ∃ p, findConfig (Demo.machine Bench.root_files Demo.accepted) "/work/app"
       = Some p.
Proof.
  apply (findConfig_finds_root_config
           (Demo.machine Bench.root_files Demo.accepted) "/work/app");
    reflexivity.
Defined.

(** The loop as a recursion, whatever the fuel of the model. *)
Lemma findConfig_unfold rt startDir :
  findConfig rt startDir
  = if contains_config rt startDir
    then Some (join rt startDir configFileName)
    else if decide (dirname startDir = startDir) then None
         else findConfig rt (dirname startDir).
Proof.
  destruct (contains_config rt startDir) eqn:Hhere.
  { apply findConfig_some. exists startDir. split; [|done].
    exists 0. repeat split; [done|]. intros j Hj. lia. }
  destruct (decide (dirname startDir = startDir)) as [Hfix|Hmove].
  { apply findConfig_none. intros k.
    by rewrite (ancestor_fixed _ Hfix). }
  destruct (findConfig rt (dirname startDir)) as [p|] eqn:Hparent.
  - apply findConfig_some in Hparent as (d & (k & -> & Hd & Hbelow) & ->).
    apply findConfig_some. exists (ancestor k (dirname startDir)).
    split; [|done]. exists (S k). rewrite ancestor_shift.
    repeat split; [done|]. intros [|j] Hj; [done|].
    rewrite ancestor_shift. apply Hbelow. lia.
  - apply findConfig_none. intros [|k]; [done|].
    rewrite ancestor_shift. by apply (proj1 (findConfig_none _ _) Hparent).
Qed.

End LocatorMore.

(** ** Runs of [cli] *)

Module CliMore.
Import Posix PosixFacts Transform Cli LocatorFacts CliFacts Observe.

(** *** Rules for the events of a computation *)

Section Emits.
Context (Q : event → Prop).

Lemma emits_ret {A} (a : A) : emits_only Q (mret a).
Proof. intros s. exists []. by rewrite app_nil_r. Qed.

Lemma emits_throw {A} e : emits_only Q (throw (A := A) e).
Proof. intros s. exists []. by rewrite app_nil_r. Qed.

Lemma emits_lift {A} (r : thrown + A) : emits_only Q (lift r).
Proof. destruct r; [apply emits_throw | apply (emits_ret a)]. Qed.

Lemma emits_get_spinner : emits_only Q get_spinner.
Proof. intros s. exists []. by rewrite app_nil_r. Qed.

Lemma emits_set_exitCode n : emits_only Q (set_exitCode n).
Proof. intros s. exists []. by rewrite app_nil_r. Qed.

Lemma emits_emit e : Q e → emits_only Q (emit e).
Proof. intros He s. exists [e]. split; [done | by constructor]. Qed.

Lemma emits_createSpinner_start text :
  Q (SpinnerStart text) → emits_only Q (createSpinner_start text).
Proof. intros He s. exists [SpinnerStart text]. split; [done | by constructor]. Qed.

Lemma emits_bind {A B} (m : M A) (f : A → M B) :
  emits_only Q m → (∀ a, emits_only Q (f a)) → emits_only Q (m ≫= f).
Proof.
  intros Hm Hf s. unfold mbind, M_bind, bind.
  destruct (Hm s) as (evs & Htr & Hevs).
  destruct (m s) as [s' [e|a]]; simpl in *; [by exists evs|].
  destruct (Hf a s') as (evs' & Htr' & Hevs').
  exists (evs ++ evs'). rewrite Htr', Htr, app_assoc. split; [done|].
  by apply Forall_app.
Qed.

Lemma emits_try_catch {A} (m : M A) (handler : thrown → M A) :
  emits_only Q m → (∀ e, emits_only Q (handler e)) →
  emits_only Q (try_catch m handler).
Proof.
  intros Hm Hh s. unfold try_catch.
  destruct (Hm s) as (evs & Htr & Hevs).
  destruct (m s) as [s' [e|a]]; simpl in *; [|by exists evs].
  destruct (Hh e s') as (evs' & Htr' & Hevs').
  exists (evs ++ evs'). rewrite Htr', Htr, app_assoc. split; [done|].
  by apply Forall_app.
Qed.

End Emits.

(** Goals [emits_only Q m], by the structure of [m]; [tac] proves [Q] of
    each event. *)
Ltac emits_with tac :=
  repeat first
    [ apply emits_bind; [|intros ?]
    | apply emits_try_catch; [|intros ?]
    | apply emits_ret | apply emits_throw | apply emits_lift
    | apply emits_get_spinner | apply emits_set_exitCode
    | apply emits_emit; tac
    | apply emits_createSpinner_start; tac
    | match goal with
      | |- emits_only _ (if ?b then _ else _) => destruct b
      | |- emits_only _ (match ?x with _ => _ end) => destruct x
      end ].

Ltac unfold_program :=
  unfold init, update, update_try, update_catch, logError, fetch,
    build_localizations, write_if_changed, promptForMissingOptions,
    answer, readFile, writeFile, printUsage.

(** *** The table of commands *)

Lemma cli_dispatch rt args a :
  arg rt (drop 2 args) = inr a →
  run rt args
  = if falsy (opt_command (options_of a))
    then (State [ConsoleLog usage] (Some 1) false, inr tt)
    else if bool_decide (opt_command (options_of a) = Some "help")
    then (State [ConsoleLog usage] None false, inr tt)
    else if bool_decide (opt_command (options_of a) = Some "init")
    then init rt (options_of a) (cwd rt) (findConfig rt (cwd rt)) initial_state
    else if bool_decide (opt_command (options_of a) = Some "update")
    then update rt (cwd rt) initial_state
    else logError rt (ThrownString
                        ("unknown command: "
                         +:+ default "" (opt_command (options_of a)))) ≫=
         (λ _, set_exitCode 1) $ initial_state.
Proof.
  intros Harg. unfold run, cli, parseArgumentsIntoOptions, printUsage.
  unfold options_of. unfold_M. rewrite Harg. simpl.
  destruct (falsy (head (arg_positional a))); [done|]. simpl.
  destruct (bool_decide (head (arg_positional a) = Some "help")); [done|].
  destruct (bool_decide (head (arg_positional a) = Some "init")); [done|].
  by destruct (bool_decide (head (arg_positional a) = Some "update")).
Qed.

(** Every branch of [cli] has the property [P] of runs as soon as the
    branches of [init] and [update] have it, and the three short runs. *)
Lemma run_cases (P : state * (thrown + unit) → Prop) rt args :
  (∀ e, P (initial_state, inl e)) →
  P (State [ConsoleLog usage] (Some 1) false, inr tt) →
  P (State [ConsoleLog usage] None false, inr tt) →
  (∀ o, command_of rt args = Some (Some "init") →
        P (init rt o (cwd rt) (findConfig rt (cwd rt)) initial_state)) →
  (command_of rt args = Some (Some "update") →
   P (update rt (cwd rt) initial_state)) →
  (∀ c, P (State [ConsoleError (error_prefix rt
                                +:+ indent ("unknown command: " +:+ c))]
                 (Some 1) false, inr tt)) →
  P (run rt args).
Proof.
  intros Hthrow Hnone Hhelp Hinit Hupdate Hunknown.
  unfold command_of in *.
  destruct (arg rt (drop 2 args)) as [e|a] eqn:Harg.
  { by rewrite (cli_arg_throws _ _ _ Harg). }
  rewrite (cli_dispatch _ _ _ Harg). unfold options_of in *. simpl in *.
  destruct (falsy _); [done|]. destruct (bool_decide _); [done|].
  case_bool_decide as Hi; [apply Hinit; by rewrite Hi|].
  case_bool_decide as Hu; [apply Hupdate; by rewrite Hu|].
  apply Hunknown.
Qed.

Lemma emits_only_init Q rt o workingDirectory configPath :
  (∀ e, is_write e = true ∨ (∃ t, e = ConsoleLog t) → Q e) →
  emits_only Q (init rt o workingDirectory configPath).
Proof.
  intros HQ. unfold_program. emits_with ltac:(apply HQ; eauto).
Qed.

(** X9. A run sets the exit code to 1 or leaves it unset: no other exit
    code comes out of [cli], whatever the arguments and the machine. *)
Theorem exit_code_unset_or_1 rt args :
  exitCode (run rt args).1 = None ∨ exitCode (run rt args).1 = Some 1.
Proof.
  apply (run_cases (λ r, exitCode r.1 = None ∨ exitCode r.1 = Some 1));
    try (by auto).
  - intros o _. left. apply init_keeps_exitCode.
  - intros _. unfold update.
    destruct (negb _); [by right|].
    unfold try_catch.
    pose proof (update_try_exit_code rt (default "" (findConfig rt (cwd rt)))
                  initial_state) as Hkeep.
    destruct (update_try _ _ _) as [s' [e|[]]]; simpl in *; [|by left].
    unfold update_catch, logError. unfold_M. simpl.
    destruct (spinner s'), e; simpl; auto.
Qed.

(** X8. Every text that a run passes to [console.error] begins with the
    error prefix: [console.error] is called inside [logError] only. (The
    text may go on over several lines; what the spinner writes is no
    [console.error] call.) *)
Theorem stderr_lines_prefixed rt args t :
  ConsoleError t ∈ trace (run rt args).1 →
  ∃ body, t = error_prefix rt +:+ body.
Proof.
  revert t.
  apply (run_cases (λ r, ∀ t, ConsoleError t ∈ trace r.1 →
                              ∃ body, t = error_prefix rt +:+ body)).
  - intros e t Hin. by apply elem_of_nil in Hin.
  - intros t Hin. by apply list_elem_of_singleton in Hin.
  - intros t Hin. by apply list_elem_of_singleton in Hin.
  - intros o _ t.
    destruct (emits_only_init (prefixed rt) rt o (cwd rt)
                (findConfig rt (cwd rt))) with (s := initial_state)
      as (evs & -> & Hevs).
    { intros e [He | [t' ->]] t0 Ht0; [by subst e | done]. }
    simpl. intros Hin. rewrite Forall_forall in Hevs.
    by apply (Hevs _ Hin).
  - intros _ t.
    assert (emits_only (prefixed rt) (update rt (cwd rt))) as Hupd.
    { unfold_program.
      emits_with ltac:(intros t0 Ht0; try done; injection Ht0 as <-; eauto). }
    destruct (Hupd initial_state) as (evs & -> & Hevs). simpl.
    intros Hin. rewrite Forall_forall in Hevs. by apply (Hevs _ Hin).
  - intros c t Hin. apply list_elem_of_singleton in Hin. injection Hin as ->.
    eauto.
Qed.

(** *** Counting events *)

Lemma filter_is_not f evs :
  Forall (is_not f) evs → List.filter f evs = [].
Proof.
  induction 1 as [|e evs He _ IH]; simpl; [done|].
  unfold is_not in He. by rewrite He.
Qed.

Lemma at_most_of_only {A} f n (m : M A) :
  emits_only (is_not f) m → emits_at_most f n m.
Proof.
  intros Hm s. destruct (Hm s) as (evs & Htr & Hevs).
  exists evs. split; [done|]. rewrite (filter_is_not _ _ Hevs). simpl. lia.
Qed.

Lemma at_most_emit f e : emits_at_most f 1 (emit e).
Proof.
  intros s. exists [e]. split; [done|]. simpl. destruct (f e); simpl; lia.
Qed.

Lemma at_most_bind_l {A B} f n (m : M A) (k : A → M B) :
  emits_at_most f n m → (∀ a, emits_only (is_not f) (k a)) →
  emits_at_most f n (m ≫= k).
Proof.
  intros Hm Hk s. unfold mbind, M_bind, bind.
  destruct (Hm s) as (evs & Htr & Hevs).
  destruct (m s) as [s' [e|a]]; simpl in *; [by exists evs|].
  destruct (Hk a s') as (evs' & Htr' & Hevs').
  exists (evs ++ evs'). rewrite Htr', Htr, app_assoc. split; [done|].
  rewrite List.filter_app, length_app, (filter_is_not _ _ Hevs'). simpl. lia.
Qed.

Lemma at_most_bind_r {A B} f n (m : M A) (k : A → M B) :
  emits_only (is_not f) m → (∀ a, emits_at_most f n (k a)) →
  emits_at_most f n (m ≫= k).
Proof.
  intros Hm Hk s. unfold mbind, M_bind, bind.
  destruct (Hm s) as (evs & Htr & Hevs).
  destruct (m s) as [s' [e|a]]; simpl in *.
  { exists evs. split; [done|]. rewrite (filter_is_not _ _ Hevs). simpl. lia. }
  destruct (Hk a s') as (evs' & Htr' & Hevs').
  exists (evs ++ evs'). rewrite Htr', Htr, app_assoc. split; [done|].
  rewrite List.filter_app, length_app, (filter_is_not _ _ Hevs). simpl. lia.
Qed.

Lemma at_most_try_catch {A} f n (m : M A) (handler : thrown → M A) :
  emits_at_most f n m → (∀ e, emits_only (is_not f) (handler e)) →
  emits_at_most f n (try_catch m handler).
Proof.
  intros Hm Hh s. unfold try_catch.
  destruct (Hm s) as (evs & Htr & Hevs).
  destruct (m s) as [s' [e|a]]; simpl in *; [|by exists evs].
  destruct (Hh e s') as (evs' & Htr' & Hevs').
  exists (evs ++ evs'). rewrite Htr', Htr, app_assoc. split; [done|].
  rewrite List.filter_app, length_app, (filter_is_not _ _ Hevs'). simpl. lia.
Qed.

Ltac no_such := solve [emits_with ltac:(done)].

Ltac at_most :=
  repeat first
    [ apply at_most_of_only; no_such
    | apply at_most_emit
    | apply at_most_bind_r; [no_such | intros ?]
    | apply at_most_bind_l; [|intros ?; no_such]
    | apply at_most_try_catch; [|intros ?; no_such]
    | match goal with
      | |- emits_at_most _ _ (if ?b then _ else _) => destruct b
      | |- emits_at_most _ _ (match ?x with _ => _ end) => destruct x
      end ].

Lemma at_most_run f rt args :
  f (ConsoleLog usage) = false →
  (∀ t, f (ConsoleError t) = false) →
  (∀ o, emits_at_most f 1 (init rt o (cwd rt) (findConfig rt (cwd rt)))) →
  emits_at_most f 1 (update rt (cwd rt)) →
  length (List.filter f (trace (run rt args).1)) ≤ 1.
Proof.
  intros Hlog Herr Hinit Hupdate.
  apply (run_cases (λ r, length (List.filter f (trace r.1)) ≤ 1)).
  - intros e. simpl. lia.
  - simpl. rewrite Hlog. simpl. lia.
  - simpl. rewrite Hlog. simpl. lia.
  - intros o _. destruct (Hinit o initial_state) as (evs & -> & Hevs). done.
  - intros _. destruct (Hupdate initial_state) as (evs & -> & Hevs). done.
  - intros c. simpl. rewrite Herr. simpl. lia.
Qed.

(** X10. A run sends at most one request and writes at most one file:
    nothing is retried, and [update] never writes twice. *)
Theorem one_request_one_write rt args :
  length (List.filter is_request (trace (run rt args).1)) ≤ 1
  ∧ length (List.filter is_write (trace (run rt args).1)) ≤ 1.
Proof.
  split; apply at_most_run; try done.
  - intros o. unfold_program. at_most.
  - unfold_program. at_most.
  - intros o. unfold_program. at_most.
  - unfold_program. at_most.
Qed.

(** *** Where requests and writes come from *)

Lemma emits_bind_lift {A B} Q (r : thrown + A) (f : A → M B) :
  (∀ a, r = inr a → emits_only Q (f a)) → emits_only Q (lift r ≫= f).
Proof.
  intros Hf. destruct r as [e|a].
  - intros s. exists []. by rewrite app_nil_r.
  - intros s. apply (Hf a eq_refl s).
Qed.

Lemma update_try_events Q rt p :
  (∀ e, quiet e → Q e) →
  (∀ text c, readFileSync rt p = inr text → parse_config rt text = inr c →
             Q (HttpGet (request_url rt c))
             ∧ ∀ j, Q (WriteFile (localization_path rt p c) j)) →
  emits_only Q (update_try rt p).
Proof.
  intros Hquiet Hconfig. unfold update_try, readFile.
  apply emits_bind_lift. intros text Hread.
  apply emits_bind_lift. intros c Hparse.
  destruct (Hconfig text c Hread Hparse) as [Hget Hwrite].
  unfold_program.
  emits_with ltac:(first [ by apply Hquiet | exact Hget | apply Hwrite ]).
Qed.

Lemma update_events Q rt workingDirectory :
  (∀ e, quiet e → Q e) →
  (∀ p, findConfig rt workingDirectory = Some p →
        emits_only Q (update_try rt p)) →
  emits_only Q (update rt workingDirectory).
Proof.
  intros Hquiet Htry. unfold update.
  destruct (findConfig rt workingDirectory) as [p|] eqn:Hfind; simpl.
  - destruct (negb (truthy (Some p))).
    + unfold logError. emits_with ltac:(by apply Hquiet).
    + apply emits_try_catch; [by apply Htry|]. intros e.
      unfold update_catch, logError. emits_with ltac:(by apply Hquiet).
  - unfold logError. emits_with ltac:(by apply Hquiet).
Qed.

(** X11. A request is sent only by [update], and only to the address built
    from the config file that [findConfig] located, once that file is read
    and parsed: the id and the secret go nowhere else. *)
Theorem request_provenance rt args url :
  HttpGet url ∈ trace (run rt args).1 →
  command_of rt args = Some (Some "update")
  ∧ ∃ p text c, findConfig rt (cwd rt) = Some p
                ∧ readFileSync rt p = inr text
                ∧ parse_config rt text = inr c
                ∧ url = request_url rt c.
Proof.
  apply (run_cases (λ r, HttpGet url ∈ trace r.1 → _)).
  - intros e Hin. by apply elem_of_nil in Hin.
  - intros Hin. by apply list_elem_of_singleton in Hin.
  - intros Hin. by apply list_elem_of_singleton in Hin.
  - intros o _.
    destruct (emits_only_init (is_not is_request) rt o (cwd rt)
                (findConfig rt (cwd rt))) with (s := initial_state)
      as (evs & -> & Hevs).
    { by intros e [He | [t ->]]; [destruct e|]. }
    simpl. intros Hin. rewrite Forall_forall in Hevs. by apply Hevs in Hin.
  - intros Hcmd Hin. split; [done|].
    destruct (update_events
                (λ e, ∀ url, e = HttpGet url →
                   ∃ p text c, findConfig rt (cwd rt) = Some p
                               ∧ readFileSync rt p = inr text
                               ∧ parse_config rt text = inr c
                               ∧ url = request_url rt c)
                rt (cwd rt)) with (s := initial_state)
      as (evs & Htr & Hevs).
    { intros e [He _] url0 ->. done. }
    { intros p Hfind. apply update_try_events.
      - intros e [He _] url0 ->. done.
      - intros text c Hread Hparse. split; [|done].
        intros url0 [= <-]. eauto 10. }
    rewrite Htr in Hin. simpl in Hin. rewrite Forall_forall in Hevs.
    by apply (Hevs _ Hin).
  - intros c Hin. by apply list_elem_of_singleton in Hin.
Qed.

(** X12. A file is written only by [init], at the config filename in the
    working directory, or by [update], at the localization path that the
    config file names, relative to the directory of the config file. *)
Theorem write_provenance rt args q j :
  WriteFile q j ∈ trace (run rt args).1 →
  (command_of rt args = Some (Some "init")
   ∧ q = join rt (cwd rt) configFileName)
  ∨ (command_of rt args = Some (Some "update")
     ∧ ∃ p text c, findConfig rt (cwd rt) = Some p
                   ∧ readFileSync rt p = inr text
                   ∧ parse_config rt text = inr c
                   ∧ q = localization_path rt p c).
Proof.
  apply (run_cases (λ r, WriteFile q j ∈ trace r.1 → _)).
  - intros e Hin. by apply elem_of_nil in Hin.
  - intros Hin. by apply list_elem_of_singleton in Hin.
  - intros Hin. by apply list_elem_of_singleton in Hin.
  - intros o Hcmd Hin. left. split; [done|].
    assert (emits_only (λ e, ∀ q j, e = WriteFile q j →
                                    q = join rt (cwd rt) configFileName)
              (init rt o (cwd rt) (findConfig rt (cwd rt)))) as Hinit.
    { unfold_program.
      emits_with ltac:(intros q0 j0 Heq; try done; by injection Heq as <- _). }
    destruct (Hinit initial_state) as (evs & Htr & Hevs).
    rewrite Htr in Hin. simpl in Hin. rewrite Forall_forall in Hevs.
    by apply (Hevs _ Hin q j).
  - intros Hcmd Hin. right. split; [done|].
    destruct (update_events
                (λ e, ∀ q j, e = WriteFile q j →
                   ∃ p text c, findConfig rt (cwd rt) = Some p
                               ∧ readFileSync rt p = inr text
                               ∧ parse_config rt text = inr c
                               ∧ q = localization_path rt p c)
                rt (cwd rt)) with (s := initial_state)
      as (evs & Htr & Hevs).
    { intros e [_ He] q0 j0 ->. done. }
    { intros p Hfind. apply update_try_events.
      - intros e [_ He] q0 j0 ->. done.
      - intros text c Hread Hparse. split; [done|].
        intros j0 q0 j1 [= <- _]. eauto 10. }
    rewrite Htr in Hin. simpl in Hin. rewrite Forall_forall in Hevs.
    by apply (Hevs _ Hin q j).
  - intros c Hin. by apply list_elem_of_singleton in Hin.
Qed.

(** *** The short runs *)

(** X13. Without a command (none, or the empty string) and with [help] the
    run prints the usage on standard output and nothing else, whatever the
    options and the disk; the exit code is 1 without a command and 0 with
    [help]. *)
Theorem usage_runs rt args command :
  command_of rt args = Some command →
  falsy command = true ∨ command = Some "help" →
  trace (run rt args).1 = [ConsoleLog usage]
  ∧ (run rt args).2 = inr tt
  ∧ exit_code (run rt args).1 = if falsy command then 1 else 0.
Proof.
  intros Hcmd [Hfalsy | ->].
  - rewrite (cli_no_command _ _ _ Hcmd Hfalsy). by rewrite Hfalsy.
  - by rewrite (cli_help _ _ Hcmd).
Qed.

(** *** [init] *)

Lemma cli_init rt args a :
  arg rt (drop 2 args) = inr a →
  head (arg_positional a) = Some "init" →
  run rt args
  = init rt (options_of a) (cwd rt) (findConfig rt (cwd rt)) initial_state.
Proof.
  intros Harg Hhead. rewrite (cli_dispatch _ _ _ Harg).
  unfold options_of. simpl. by rewrite Hhead.
Qed.

(** X15. [init] in a project that has a config file already, when the user
    declines: the path of the config found is shown, and the run ends there,
    with nothing written and the exit code unset. *)
Theorem init_declined rt args a p :
  arg rt (drop 2 args) = inr a →
  head (arg_positional a) = Some "init" →
  findConfig rt (cwd rt) = Some p → p ≠ "" →
  confirm rt ("Do you still want to create "
              +:+ join rt (cwd rt) configFileName +:+ "?") = inr false →
  run rt args
  = (State [ConsoleLog (yellow rt "!" +:+ " Found config at " +:+ bold rt p)]
           None false, inr tt).
Proof.
  intros Harg Hhead Hfind Hp Hconfirm.
  rewrite (cli_init _ _ _ Harg Hhead), Hfind. unfold init, truthy, falsy.
  rewrite bool_decide_eq_false_2 by done. unfold_M. simpl.
  by rewrite Hconfirm.
Qed.

(** The options that need no prompt. *)
Lemma prompt_not_needed rt o s :
  falsy (opt_id o) = false → falsy (opt_secret o) = false →
  falsy (opt_path o) = false →
  promptForMissingOptions rt o s = (s, inr o).
Proof.
  intros Hid Hsecret Hpath. unfold promptForMissingOptions.
  rewrite Hid, Hsecret, Hpath. destruct o. simpl.
  by destruct (bool_decide _).
Qed.

(** X16. [init] with the id, the secret and the path on the command line,
    in a directory without a config above it: no prompt is consulted, the
    config is written in the working directory with exactly these three
    values, and the exit code is left unset. When the write throws, the
    error is not caught: the promise of [cli] is rejected with it and the
    last line is not printed. *)
Theorem init_with_options rt args a i secret path :
  arg rt (drop 2 args) = inr a →
  head (arg_positional a) = Some "init" →
  arg_id a = Some i → arg_secret a = Some secret → arg_path a = Some path →
  i ≠ "" → secret ≠ "" → path ≠ "" →
  findConfig rt (cwd rt) = None →
  run rt args
  = match writeFileSync rt (join rt (cwd rt) configFileName)
            (stringify_config rt (Config i secret path)) with
    | None =>
        (State [ WriteFile (join rt (cwd rt) configFileName)
                   (stringify_config rt (Config i secret path));
                 ConsoleLog (saved_message rt (join rt (cwd rt) configFileName)) ]
               None false, inr tt)
    | Some e =>
        (State [ WriteFile (join rt (cwd rt) configFileName)
                   (stringify_config rt (Config i secret path)) ]
               None false, inl e)
    end.
Proof.
  intros Harg Hhead Hid Hsecret Hpath Hi Hs Hp Hfind.
  rewrite (cli_init _ _ _ Harg Hhead), Hfind. unfold init.
  unfold mbind at 1, M_bind, bind. simpl.
  unfold mbind at 1, M_bind, bind.
  rewrite prompt_not_needed; unfold options_of; simpl;
    rewrite ?Hid, ?Hsecret, ?Hpath; simpl;
    try by apply bool_decide_eq_false_2.
  unfold writeFile. unfold_M. simpl.
  by destruct (writeFileSync rt _ _).
Qed.

(** X17. What [promptForMissingOptions] returns: the command is kept, an
    option given with a value that is not empty is kept, and for [init]
    none of the three options is left undefined. *)
Theorem promptForMissingOptions_result rt o s s' o' :
  promptForMissingOptions rt o s = (s', inr o') →
  s' = s
  ∧ opt_command o' = opt_command o
  ∧ (falsy (opt_id o) = false → opt_id o' = opt_id o)
  ∧ (falsy (opt_secret o) = false → opt_secret o' = opt_secret o)
  ∧ (falsy (opt_path o) = false → opt_path o' = opt_path o)
  ∧ (opt_command o = Some "init" →
     is_Some (opt_id o') ∧ is_Some (opt_secret o') ∧ is_Some (opt_path o')).
Proof.
  unfold promptForMissingOptions. unfold_M.
  case_bool_decide as Hinit; [|by intros [= <- <-]].
  assert (∀ x, falsy x = false → is_Some x) as Hsome.
  { intros [x|] Hx; [by eexists | done]. }
  destruct (falsy (opt_id o)) eqn:Hid;
    [destruct (input rt "Enter project ID" None); simpl; [done|]|];
    (destruct (falsy (opt_secret o)) eqn:Hsecret;
     [destruct (password rt "Enter project secret"); simpl; [done|]|]);
    (destruct (falsy (opt_path o)) eqn:Hpath;
     [destruct (input rt "Enter localization path" _); simpl; [done|]|]);
    intros [= <- <-]; simpl; repeat split; (done || eauto).
Qed.

(** *** [update] *)

Lemma run_update rt args p :
  command_of rt args = Some (Some "update") →
  findConfig rt (cwd rt) = Some p → p ≠ "" →
  run rt args = try_catch (update_try rt p) (update_catch rt) initial_state.
Proof.
  intros Hcmd Hfind Hp. unfold run.
  by rewrite (cli_update _ _ _ Hcmd), (update_found _ _ _ _ Hfind Hp).
Qed.

(** Up to the comparison the body of [try] is the five events of the
    request and of the loops. *)
Lemma update_try_reaches rt p c keys h s :
  reaches_comparison rt p c keys h →
  update_try rt p s
  = write_if_changed rt (localization_path rt p c) (stringify rt (Js.own h))
      (State (trace s ++ fetched_events rt c) (exitCode s) true).
Proof.
  intros [text response d Hread Hparse Hget Hok Hdata Hkeys Hrun].
  unfold update_try, fetch, build_localizations, readFile. unfold_M. simpl.
  rewrite Hread. simpl. rewrite Hparse. simpl. rewrite Hget. simpl.
  rewrite Hok. simpl. rewrite Hdata. simpl. rewrite Hkeys. simpl.
  rewrite Hrun. simpl. unfold fetched_events. by rewrite <- ?app_assoc.
Qed.

(** The four runs that follow go beyond the loops. They are stated for a
    payload of plain names, on which the loops write into [localizations]
    and its inner objects only: nothing is stored on [Object.prototype],
    and no built-in function is assigned to, so that the libraries called
    after the loops are those of the runtime. *)

(** X19. [update] when every step passes on a payload of plain names (the
    loops have stored nothing on [Object.prototype]) and the localization
    file is absent or differs from the new content: the run is the two
    spinners of the request and of the loops, then the write of the
    serialized output at the path that the config names, relative to the
    directory of the config file; it returns with the exit code unset. *)
Theorem update_writes rt args p c keys h :
  command_of rt args = Some (Some "update") →
  findConfig rt (cwd rt) = Some p → p ≠ "" →
  reaches_comparison rt p c keys h →
  plain_names keys → Js.object_prototype h = ∅ →
  (existsSync rt (localization_path rt p c) = false
   ∨ ∃ old, readFileSync rt (localization_path rt p c) = inr old
            ∧ old ≠ stringify rt (Js.own h)) →
  writeFileSync rt (localization_path rt p c) (stringify rt (Js.own h)) = None →
  run rt args
  = (State (fetched_events rt c
            ++ [ SpinnerStart ("Writing to " +:+ localization_path rt p c
                               +:+ "...");
                 WriteFile (localization_path rt p c) (stringify rt (Js.own h));
                 SpinnerSuccess ])
           None true, inr tt).
Proof.
  intros Hcmd Hfind Hp Hreach _ _ Hdiff Hwrite.
  rewrite (run_update _ _ _ Hcmd Hfind Hp). unfold try_catch.
  rewrite (update_try_reaches _ _ _ _ _ _ Hreach).
  unfold write_if_changed, readFile, writeFile. unfold_M. simpl.
  destruct (existsSync rt (localization_path rt p c)) eqn:Hexists; simpl.
  - destruct Hdiff as [? | (old & Hold & Hne)]; [done|].
    rewrite Hold. simpl. rewrite bool_decide_eq_false_2 by done. simpl.
    rewrite Hwrite. simpl. by rewrite <- ?app_assoc.
  - rewrite Hwrite. simpl. by rewrite <- ?app_assoc.
Qed.

(** X20. [update] when every step passes on a payload of plain names (the
    loops have stored nothing on [Object.prototype]) and the localization
    file holds the new content already: after the two spinners the run
    reports that nothing has changed, writes nothing and leaves the exit
    code unset. *)
Theorem update_unchanged rt args p c keys h :
  command_of rt args = Some (Some "update") →
  findConfig rt (cwd rt) = Some p → p ≠ "" →
  reaches_comparison rt p c keys h →
  plain_names keys → Js.object_prototype h = ∅ →
  existsSync rt (localization_path rt p c) = true →
  readFileSync rt (localization_path rt p c) = inr (stringify rt (Js.own h)) →
  run rt args
  = (State (fetched_events rt c ++ [ConsoleLog (unchanged_message rt)])
           None true, inr tt).
Proof.
  intros Hcmd Hfind Hp Hreach _ _ Hexists Hsame.
  rewrite (run_update _ _ _ Hcmd Hfind Hp). unfold try_catch.
  rewrite (update_try_reaches _ _ _ _ _ _ Hreach).
  unfold write_if_changed, readFile. unfold_M. simpl.
  rewrite Hexists. simpl. rewrite Hsame. simpl.
  by rewrite bool_decide_eq_true_2.
Qed.


(** X22. [update] on a payload of plain names (the loops have stored
    nothing on [Object.prototype]) when the localization path exists and
    cannot be read (a directory, say): the error is printed after the
    prefix and the exit code is 1, nothing is written; the handler marks as
    failed the spinner of the loops, which had succeeded. *)
Theorem update_localization_unreadable rt args p c keys h text :
  command_of rt args = Some (Some "update") →
  findConfig rt (cwd rt) = Some p → p ≠ "" →
  reaches_comparison rt p c keys h →
  plain_names keys → Js.object_prototype h = ∅ →
  existsSync rt (localization_path rt p c) = true →
  readFileSync rt (localization_path rt p c) = inl (ThrownError text) →
  run rt args
  = (State (fetched_events rt c
            ++ [ SpinnerError;
                 ConsoleError (error_prefix rt +:+ indent text) ])
           (Some 1) true, inr tt).
Proof.
  intros Hcmd Hfind Hp Hreach _ _ Hexists Hread.
  rewrite (run_update _ _ _ Hcmd Hfind Hp). unfold try_catch.
  rewrite (update_try_reaches _ _ _ _ _ _ Hreach).
  unfold write_if_changed, readFile, update_catch, logError.
  unfold_M. simpl. rewrite Hexists. simpl. rewrite Hread. simpl.
  by rewrite <- ?app_assoc.
Qed.

(** X23. [update] when the config file cannot be read or parsed: the error
    is printed after the prefix and the exit code is 1; no spinner was
    started, so none is stopped, and no request is sent. *)
Theorem update_config_unusable rt args p text :
  command_of rt args = Some (Some "update") →
  findConfig rt (cwd rt) = Some p → p ≠ "" →
  (readFileSync rt p = inl (ThrownError text)
   ∨ ∃ contents, readFileSync rt p = inr contents
                 ∧ parse_config rt contents = inl (ThrownError text)) →
  run rt args
  = (State [ConsoleError (error_prefix rt +:+ indent text)]
           (Some 1) false, inr tt).
Proof.
  intros Hcmd Hfind Hp Hbad.
  rewrite (run_update _ _ _ Hcmd Hfind Hp).
  unfold try_catch, update_try, readFile, update_catch, logError.
  unfold_M. simpl.
  destruct Hbad as [Hread | (contents & Hread & Hparse)]; rewrite Hread; simpl;
    [done|]. by rewrite Hparse.
Qed.

(** X24. [update] when the request itself fails (network, or a status
    that axios rejects): one request was sent, the spinner is stopped, the
    error is printed after the prefix and the exit code is 1. *)
Theorem update_request_fails rt args p contents c text :
  command_of rt args = Some (Some "update") →
  findConfig rt (cwd rt) = Some p → p ≠ "" →
  readFileSync rt p = inr contents →
  parse_config rt contents = inr c →
  axios_get rt (request_url rt c) = inl (ThrownError text) →
  run rt args
  = (State [ SpinnerStart "Fetching updates...";
             HttpGet (request_url rt c);
             SpinnerError;
             ConsoleError (error_prefix rt +:+ indent text) ]
           (Some 1) true, inr tt).
Proof.
  intros Hcmd Hfind Hp Hread Hparse Hget.
  rewrite (run_update _ _ _ Hcmd Hfind Hp).
  unfold try_catch, update_try, fetch, readFile, update_catch, logError.
  unfold_M. simpl. rewrite Hread. simpl. rewrite Hparse. simpl.
  by rewrite Hget.
Qed.

(** *** Two more short runs *)

(** X14. A command that is none of [help], [init] and [update] (the
    comparison is exact, so [Update] is one): the run prints one line on
    standard error, the prefix and [unknown command: ] followed by the word,
    sets the exit code to 1 and returns, without request or write. *)
Theorem unknown_command_run rt args command :
  command_of rt args = Some (Some command) →
  command ∉ [""; "help"; "init"; "update"] →
  run rt args
  = (State [ConsoleError (error_prefix rt
                          +:+ indent ("unknown command: " +:+ command))]
           (Some 1) false, inr tt)
  ∧ exit_code (run rt args).1 = 1
  ∧ Forall quiet (trace (run rt args).1).
Proof.
  intros Hcmd Hother. rewrite (cli_unknown _ _ _ Hcmd Hother).
  split; [done|]. split; [done|]. by repeat constructor.
Qed.

Lemma unknown_command_run_witness :
  run (Demo.machine [] Demo.accepted) ["node"; "apploc"; "Update"]
  = (State [ConsoleError "error: unknown command: Update"] (Some 1) false,
     inr tt)
  ∧ exit_code (run (Demo.machine [] Demo.accepted)
                   ["node"; "apploc"; "Update"]).1 = 1
  ∧ Forall quiet (trace (run (Demo.machine [] Demo.accepted)
                             ["node"; "apploc"; "Update"]).1).
Proof.
  apply (unknown_command_run (Demo.machine [] Demo.accepted)
           ["node"; "apploc"; "Update"] "Update").
  - reflexivity.
  - intros Hin. repeat (apply elem_of_cons in Hin as [Hin | Hin];
                        [discriminate|]).
    by apply elem_of_nil in Hin.
Defined.

(** X18. [init] never sets the exit code, not even when a prompt or the
    write throws: whatever happens, [process.exitCode] is still unset when
    [cli] returns or rejects. *)
Theorem init_leaves_exit_code rt args :
  command_of rt args = Some (Some "init") →
  exitCode (run rt args).1 = None.
Proof.
  unfold command_of.
  destruct (arg rt (drop 2 args)) as [e|a] eqn:Harg; [done|].
  intros [= Hhead]. rewrite (cli_init _ _ _ Harg Hhead).
  apply init_keeps_exitCode.
Qed.

Lemma init_leaves_exit_code_witness :
  exitCode (run (Bench.with_failing_writes Bench.access_denied
                   (Demo.machine [] Demo.accepted)) Bench.init_args).1 = None.
Proof.
  apply (init_leaves_exit_code
           (Bench.with_failing_writes Bench.access_denied
              (Demo.machine [] Demo.accepted)) Bench.init_args).
  reflexivity.
Defined.

(** *** The runs above, on machines *)

Lemma stderr_lines_prefixed_witness :
  ∃ body, "error: bad secret"
          = error_prefix (Demo.machine Demo.project_files Demo.bad_secret)
            +:+ body.
Proof.
  apply (stderr_lines_prefixed
           (Demo.machine Demo.project_files Demo.bad_secret)
           Demo.update_args "error: bad secret").
  vm_compute. repeat constructor.
Defined.

Lemma request_provenance_witness :
  command_of (Demo.machine Demo.project_files Demo.accepted) Demo.update_args
  = Some (Some "update")
  ∧ ∃ p text c,
      findConfig (Demo.machine Demo.project_files Demo.accepted)
        (cwd (Demo.machine Demo.project_files Demo.accepted)) = Some p
      ∧ readFileSync (Demo.machine Demo.project_files Demo.accepted) p
        = inr text
      ∧ parse_config (Demo.machine Demo.project_files Demo.accepted) text
        = inr c
      ∧ "https://api.apploc.dev/getProjectData?id=p1&secret=s3cret"
        = request_url (Demo.machine Demo.project_files Demo.accepted) c.
Proof.
  apply (request_provenance
           (Demo.machine Demo.project_files Demo.accepted) Demo.update_args).
  vm_compute. repeat constructor.
Defined.

Lemma write_provenance_witness :
  (command_of (Bench.with_arguments Bench.init_arguments
                 (Demo.machine [] Demo.accepted)) Bench.init_args
   = Some (Some "init")
   ∧ "/work/app/apploc.config.json"
     = join (Bench.with_arguments Bench.init_arguments
               (Demo.machine [] Demo.accepted))
         (cwd (Bench.with_arguments Bench.init_arguments
                 (Demo.machine [] Demo.accepted))) configFileName)
  ∨ (command_of (Bench.with_arguments Bench.init_arguments
                   (Demo.machine [] Demo.accepted)) Bench.init_args
     = Some (Some "update")
     ∧ ∃ p text c,
         findConfig (Bench.with_arguments Bench.init_arguments
                       (Demo.machine [] Demo.accepted))
           (cwd (Bench.with_arguments Bench.init_arguments
                   (Demo.machine [] Demo.accepted))) = Some p
         ∧ readFileSync (Bench.with_arguments Bench.init_arguments
                           (Demo.machine [] Demo.accepted)) p = inr text
         ∧ parse_config (Bench.with_arguments Bench.init_arguments
                           (Demo.machine [] Demo.accepted)) text = inr c
         ∧ "/work/app/apploc.config.json"
           = localization_path (Bench.with_arguments Bench.init_arguments
                                  (Demo.machine [] Demo.accepted)) p c).
Proof.
  apply (write_provenance
           (Bench.with_arguments Bench.init_arguments
              (Demo.machine [] Demo.accepted)) Bench.init_args
           "/work/app/apploc.config.json" Demo.config_text).
  vm_compute. repeat constructor.
Defined.

Lemma usage_runs_witness :
  trace (run (Demo.machine [] Demo.accepted) ["node"; "apploc"]).1
  = [ConsoleLog usage]
  ∧ (run (Demo.machine [] Demo.accepted) ["node"; "apploc"]).2 = inr tt
  ∧ exit_code (run (Demo.machine [] Demo.accepted) ["node"; "apploc"]).1
    = if falsy None then 1 else 0.
Proof.
  apply (usage_runs (Demo.machine [] Demo.accepted) ["node"; "apploc"] None).
  - reflexivity.
  - left. reflexivity.
Defined.

Lemma init_declined_witness :
  run (Demo.machine Demo.project_files Demo.accepted) Bench.init_args
  = (State [ConsoleLog "! Found config at /work/apploc.config.json"]
           None false, inr tt).
Proof.
  apply (init_declined (Demo.machine Demo.project_files Demo.accepted)
           Bench.init_args (ArgResult None None None ["init"])
           "/work/apploc.config.json"); try reflexivity.
  discriminate.
Defined.

Lemma init_with_options_witness :
  run (Bench.with_arguments Bench.init_arguments
         (Demo.machine [] Demo.accepted)) Bench.init_args
  = (State [ WriteFile "/work/app/apploc.config.json" Demo.config_text;
             ConsoleLog (saved_message
                           (Bench.with_arguments Bench.init_arguments
                              (Demo.machine [] Demo.accepted))
                           "/work/app/apploc.config.json") ]
           None false, inr tt).
Proof.
  apply (init_with_options
           (Bench.with_arguments Bench.init_arguments
              (Demo.machine [] Demo.accepted)) Bench.init_args
           Bench.init_arguments "p1" "s3cret" "/localization.json");
    try reflexivity; discriminate.
Defined.

Lemma promptForMissingOptions_result_witness :
  initial_state = initial_state
  ∧ opt_command (Options (Some "p1") (Some "s") (Some "/localization.json")
                   (Some "init"))
    = opt_command (Options None (Some "s") None (Some "init"))
  ∧ (falsy (opt_id (Options None (Some "s") None (Some "init"))) = false →
     opt_id (Options (Some "p1") (Some "s") (Some "/localization.json")
               (Some "init"))
     = opt_id (Options None (Some "s") None (Some "init")))
  ∧ (falsy (opt_secret (Options None (Some "s") None (Some "init"))) = false →
     opt_secret (Options (Some "p1") (Some "s") (Some "/localization.json")
                   (Some "init"))
     = opt_secret (Options None (Some "s") None (Some "init")))
  ∧ (falsy (opt_path (Options None (Some "s") None (Some "init"))) = false →
     opt_path (Options (Some "p1") (Some "s") (Some "/localization.json")
                 (Some "init"))
     = opt_path (Options None (Some "s") None (Some "init")))
  ∧ (opt_command (Options None (Some "s") None (Some "init")) = Some "init" →
     is_Some (opt_id (Options (Some "p1") (Some "s")
                        (Some "/localization.json") (Some "init")))
     ∧ is_Some (opt_secret (Options (Some "p1") (Some "s")
                              (Some "/localization.json") (Some "init")))
     ∧ is_Some (opt_path (Options (Some "p1") (Some "s")
                            (Some "/localization.json") (Some "init")))).
Proof.
  apply (promptForMissingOptions_result (Demo.machine [] Demo.accepted)
           (Options None (Some "s") None (Some "init")) initial_state).
  reflexivity.
Defined.

Lemma example_reaches_comparison files :
  Js.obj_get "/work/apploc.config.json" files = Some Demo.config_text →
  reaches_comparison (Demo.machine files Demo.accepted)
    "/work/apploc.config.json" Demo.stored_config example_keys
    Bench.example_heap.
Proof.
  intros Hfile.
  apply (all_steps_pass _ _ _ _ _ Demo.config_text
           (Envelope true (Some Demo.keys_text) None) Demo.keys_text);
    try reflexivity.
  simpl. by rewrite Hfile.
Defined.

Lemma update_writes_witness :
  run (Demo.machine Demo.project_files Demo.accepted) Demo.update_args
  = (State (fetched_events (Demo.machine Demo.project_files Demo.accepted)
              Demo.stored_config
            ++ [ SpinnerStart "Writing to /work/localization.json...";
                 WriteFile "/work/localization.json"
                   (Demo.stringify_object (Js.own Bench.example_heap));
                 SpinnerSuccess ])
           None true, inr tt).
Proof.
  apply (update_writes (Demo.machine Demo.project_files Demo.accepted)
           Demo.update_args "/work/apploc.config.json" Demo.stored_config
           example_keys Bench.example_heap).
  - reflexivity.
  - reflexivity.
  - discriminate.
  - apply example_reaches_comparison. reflexivity.
  - repeat constructor; done.
  - reflexivity.
  - right. exists "{}". split; [reflexivity | by vm_compute].
  - reflexivity.
Defined.

Lemma update_unchanged_witness :
  run (Demo.machine Demo.up_to_date_files Demo.accepted) Demo.update_args
  = (State (fetched_events (Demo.machine Demo.up_to_date_files Demo.accepted)
              Demo.stored_config
            ++ [ConsoleLog (unchanged_message
                              (Demo.machine Demo.up_to_date_files
                                 Demo.accepted))])
           None true, inr tt).
Proof.
  apply (update_unchanged (Demo.machine Demo.up_to_date_files Demo.accepted)
           Demo.update_args "/work/apploc.config.json" Demo.stored_config
           example_keys Bench.example_heap).
  - reflexivity.
  - reflexivity.
  - discriminate.
  - apply example_reaches_comparison. reflexivity.
  - repeat constructor; done.
  - reflexivity.
  - reflexivity.
  - reflexivity.
Defined.


Lemma update_localization_unreadable_witness :
  run (Bench.with_directory "/work/localization.json" Bench.is_a_directory
         (Demo.machine Bench.config_only_files Demo.accepted))
      Demo.update_args
  = (State (fetched_events
              (Bench.with_directory "/work/localization.json"
                 Bench.is_a_directory
                 (Demo.machine Bench.config_only_files Demo.accepted))
              Demo.stored_config
            ++ [ SpinnerError;
                 ConsoleError
                   "error: Error: EISDIR: illegal operation on a directory, read" ])
           (Some 1) true, inr tt).
Proof.
  apply (update_localization_unreadable
           (Bench.with_directory "/work/localization.json"
              Bench.is_a_directory
              (Demo.machine Bench.config_only_files Demo.accepted))
           Demo.update_args "/work/apploc.config.json" Demo.stored_config
           example_keys Bench.example_heap
           "Error: EISDIR: illegal operation on a directory, read").
  - reflexivity.
  - reflexivity.
  - discriminate.
  - apply (all_steps_pass _ _ _ _ _ Demo.config_text
             (Envelope true (Some Demo.keys_text) None) Demo.keys_text);
      reflexivity.
  - repeat constructor; done.
  - reflexivity.
  - reflexivity.
  - reflexivity.
Defined.

Lemma update_config_unusable_witness :
  run (Demo.machine Bench.broken_files Demo.accepted) Demo.update_args
  = (State [ConsoleError "error: SyntaxError: Unexpected token"]
           (Some 1) false, inr tt).
Proof.
  apply (update_config_unusable
           (Demo.machine Bench.broken_files Demo.accepted) Demo.update_args
           "/work/apploc.config.json" "SyntaxError: Unexpected token").
  - reflexivity.
  - reflexivity.
  - discriminate.
  - right. exists "{id:". split; reflexivity.
Defined.

Lemma update_request_fails_witness :
  run (Demo.machine Demo.project_files (inl Bench.unreachable))
      Demo.update_args
  = (State [ SpinnerStart "Fetching updates...";
             HttpGet "https://api.apploc.dev/getProjectData?id=p1&secret=s3cret";
             SpinnerError;
             ConsoleError
               "error: Error: getaddrinfo ENOTFOUND api.apploc.dev" ]
           (Some 1) true, inr tt).
Proof.
  apply (update_request_fails
           (Demo.machine Demo.project_files (inl Bench.unreachable))
           Demo.update_args "/work/apploc.config.json" Demo.config_text
           Demo.stored_config
           "Error: getaddrinfo ENOTFOUND api.apploc.dev").
  - reflexivity.
  - reflexivity.
  - discriminate.
  - reflexivity.
  - reflexivity.
  - reflexivity.
Defined.

End CliMore.
